(** * Edge-aware graph diffusion on RGB rasters: serial and MPI+OpenMP engines

    A shallow embedding of [src/serial/graph_denoise_rgb.c] and
    [src/hybrid/graph_denoise_rgb.c], with the PPM reader and writer they
    share, the median filter of [src/serial/median_denoise_rgb.c] and the
    row partition of [src/mpi/median_denoise_rgb.c].

    - [int] values are mathematical integers ([Z]); every index expression of
      the two programs is evaluated without overflow (signed overflow is
      undefined in C, so the programs are only defined where the products
      [width * height * 3] fit an [int]).
    - [unsigned char] buffers are [list Z] with entries in [[0,256)], read and
      written by index.
    - [float] is IEEE-754 binary32 with round-to-nearest-even, every
      operation rounded to binary32 (no excess precision, no contraction),
      built from the parametric operations of [SpecFloat] at precision 24 and
      [emax = 128].
    - [expf] belongs to the C library and not to the repository: it is a
      section variable.  The only fact ever assumed about it is the
      guarantee of C Annex F that [expf(+-0)] returns exactly [1]. *)

From Stdlib Require Import ZArith Lia Bool List Permutation.
From Stdlib Require Import Floats.SpecFloat.
From stdpp Require Import base tactics option list.

Local Open Scope Z_scope.

(** ** IEEE-754 binary32 *)

Module F32.

Definition prec : Z := 24.
Definition emax : Z := 128.

Definition float32 := spec_float.

Definition add : float32 -> float32 -> float32 := SFadd prec emax.
Definition sub : float32 -> float32 -> float32 := SFsub prec emax.
Definition mul : float32 -> float32 -> float32 := SFmul prec emax.
Definition div : float32 -> float32 -> float32 := SFdiv prec emax.
Definition neg : float32 -> float32 := SFopp.
Definition fabsf : float32 -> float32 := SFabs.

(** The conversion [(float) n] of an [int]. *)
Definition of_int (n : Z) : float32 := binary_normalize prec emax n 0 false.

(** The C comparison [a > b]: false as soon as one side is a NaN. *)
Definition gt (a b : float32) : bool := SFltb b a.
Definition le (a b : float32) : bool := SFleb a b.

(** [fmaxf] and [fminf]: when exactly one argument is a NaN the other one
    is returned. *)
Definition fmaxf (a b : float32) : float32 :=
  match a, b with
  | S754_nan, _ => b
  | _, S754_nan => a
  | _, _ => if SFltb a b then b else a
  end.

Definition fminf (a b : float32) : float32 :=
  match a, b with
  | S754_nan, _ => b
  | _, S754_nan => a
  | _, _ => if SFltb b a then b else a
  end.

(** Integral part of a float, rounded toward zero; [None] for NaN and the
    infinities. *)
Definition trunc (f : float32) : option Z :=
  match f with
  | S754_zero _ => Some 0
  | S754_finite s m e =>
      let a := match e with
               | Z0 => Zpos m
               | Zpos p => Zpos m * Z.pow_pos 2 p
               | Zneg p => Zpos m / Z.pow_pos 2 p
               end in
      Some (if s then - a else a)
  | _ => None
  end.

(** The conversion [(unsigned char) f].  C defines it only when the
    integral part of [f] fits the type; the programs only convert values
    already clamped to [[0,255]] (see [clamp_range]), where it is the
    integral part itself. *)
Definition to_uchar (f : float32) : Z :=
  match trunc f with
  | Some z => z mod 256
  | None => 0
  end.

Definition zero : float32 := S754_zero false.
Definition one : float32 := SFone prec emax.

Definition is_nan (f : float32) : bool :=
  match f with S754_nan => true | _ => false end.

(** Zero or finite: neither a NaN nor an infinity. *)
Definition is_finite (f : float32) : bool :=
  match f with S754_zero _ | S754_finite _ _ _ => true | _ => false end.

Definition is_zero (f : float32) : bool :=
  match f with S754_zero _ => true | _ => false end.

Definition valid (f : float32) : bool := valid_binary prec emax f.

End F32.

Import F32.

(** ** The per-pixel rule (serial lines 73-95, hybrid lines 129-148) *)

Section Stencil.

(** [expf] of the C library. *)
Variable expf : float32 -> float32.

(** [float sigma = 20.0f, threshold = 20.0f;] *)
Definition sigma : float32 := of_int 20.
Definition threshold : float32 := of_int 20.

(** One turn of [for (int i = 0; i < 4; i++)]: [diff], [weight], and the
    two accumulators [(weight_sum, weighted_value)]. *)
Definition weight (center neighbor : Z) : float32 :=
  let diff := of_int (neighbor - center) in
  expf (div (neg (mul diff diff)) (mul (mul (of_int 2) sigma) sigma)).

Definition accum_step (center : Z) (acc : float32 * float32) (neighbor : Z)
  : float32 * float32 :=
  let '(weight_sum, weighted_value) := acc in
  let weight := weight center neighbor in
  (add weight_sum weight, add weighted_value (mul weight (of_int neighbor))).

Definition accumulate (center : Z) (neighbors : list Z) : float32 * float32 :=
  fold_left (accum_step center) neighbors (zero, zero).

Definition smooth_value (center : Z) (neighbors : list Z) : float32 :=
  let '(weight_sum, weighted_value) := accumulate center neighbors in
  div weighted_value weight_sum.

(** [fabsf(smooth_value - center)] *)
Definition edge_strength (center : Z) (neighbors : list Z) : float32 :=
  fabsf (sub (smooth_value center neighbors) (of_int center)).

Definition clamp (result : float32) : float32 :=
  fminf (fmaxf result (of_int 0)) (of_int 255).

(** The value stored at [idx] from [center] and [neighbors[4]]. *)
Definition pixel_update (alpha : float32) (center : Z) (neighbors : list Z) : Z :=
  let smooth := smooth_value center neighbors in
  let diff_val := fabsf (sub smooth (of_int center)) in
  let result :=
    if gt diff_val threshold then smooth
    else add (of_int center) (mul alpha (sub smooth (of_int center))) in
  to_uchar (clamp result).

(** *** The rule in the words of the specification *)








End Stencil.


(** ** Images and pixel buffers *)

Record PPMImage := { width : Z; height : Z; data : list Z }.

(** [buf[i]] and [buf[i] = v]. *)
Definition rd (buf : list Z) (i : Z) : Z :=
  if 0 <=? i then default 0 (buf !! Z.to_nat i) else 0.

Definition wr (buf : list Z) (i v : Z) : list Z :=
  if 0 <=? i then <[Z.to_nat i := v]> buf else buf.

(** A buffer of [width * height * 3] bytes. *)
Definition buffer_ok (width height : Z) (buf : list Z) : Prop :=
  Z.of_nat (length buf) = width * height * 3.

Definition bytes_ok (buf : list Z) : Prop :=
  ∀ (i : nat) (b : Z), buf !! i = Some b → 0 <= b < 256.

Definition image_ok (img : PPMImage) : Prop :=
  0 < width img ∧ 0 < height img ∧ buffer_ok (width img) (height img) (data img).

(** [(y * width + x) * 3 + c] *)
Definition idx (width y x c : Z) : Z := (y * width + x) * 3 + c.

(** A cell [(y, x, c)] of the triple loop. *)
Definition cell : Type := Z * Z * Z.

Definition cell_idx (width : Z) (cl : cell) : Z :=
  let '(y, x, c) := cl in idx width y x c.

(** [int neighbors[4]] *)
Definition neighbors (width : Z) (curr : list Z) (y x c : Z) : list Z :=
  [ rd curr (idx width (y - 1) x c);
    rd curr (idx width (y + 1) x c);
    rd curr (idx width y (x - 1) c);
    rd curr (idx width y (x + 1) c) ].

(** The cells of [for y in [y0,y1)], [for x in [1,width-1)], [for c in
    [0,3)], in program order. *)
Definition region_cells (width y0 y1 : Z) : list cell :=
  y ← seqZ y0 (y1 - y0); x ← seqZ 1 (width - 2); c ← seqZ 0 3; [(y, x, c)].

Section Pass.

Variable expf : float32 -> float32.
Variable alpha : float32.
Variable width : Z.

(** The value computed for a cell from the snapshot [curr]. *)
Definition cell_value (curr : list Z) (cl : cell) : Z :=
  let '(y, x, c) := cl in
  pixel_update expf alpha (rd curr (idx width y x c)) (neighbors width curr y x c).

(** The loop body: read [curr], store into [next]. *)
Definition update_cell (curr next : list Z) (cl : cell) : list Z :=
  wr next (cell_idx width cl) (cell_value curr cl).

(** The loop nest run over the cells in the order [order]. *)
Definition stencil_pass (curr next : list Z) (order : list cell) : list Z :=
  fold_left (update_cell curr) order next.

End Pass.

(** ** Block decomposition (hybrid lines 84-116) *)

Section Partition.

Variables width height size : Z.

Definition rows_per_proc : Z := Z.quot height size.
Definition extra : Z := Z.rem height size.

Definition local_rows (rank : Z) : Z :=
  if rank <? extra then rows_per_proc + 1 else rows_per_proc.

Definition local_start (rank : Z) : Z :=
  if rank <? extra then rank * (rows_per_proc + 1)
  else rank * rows_per_proc + extra.

Definition local_end (rank : Z) : Z := local_start rank + local_rows rank.

Definition local_eff_start (rank : Z) : Z :=
  if local_start rank <? 1 then 1 else local_start rank.

Definition local_eff_end (rank : Z) : Z :=
  if local_end rank >? height - 1 then height - 1 else local_end rank.

Definition local_count (rank : Z) : Z :=
  (local_eff_end rank - local_eff_start rank) * width * 3.

(** The table loop [for (int i = 0; i < size; i++)], written as the code
    writes it a second time. *)
Definition proc_rows (i : Z) : Z :=
  if i <? extra then rows_per_proc + 1 else rows_per_proc.

Definition proc_start (i : Z) : Z :=
  if i <? extra then i * (rows_per_proc + 1) else i * rows_per_proc + extra.

Definition proc_end (i : Z) : Z := proc_start i + proc_rows i.

Definition eff_start (i : Z) : Z :=
  if proc_start i <? 1 then 1 else proc_start i.

Definition eff_end (i : Z) : Z :=
  if proc_end i >? height - 1 then height - 1 else proc_end i.

Definition recvcounts (i : Z) : Z := (eff_end i - eff_start i) * width * 3.

Definition displs (i : Z) : Z := eff_start i * width * 3.

End Partition.

(** ** The distributed engine (hybrid lines 75-163) *)

(** The order in which the cells of round [iter] complete on rank [rank]:
    the [omp parallel for] leaves it to the runtime. *)
Definition schedule : Type := nat → Z → list cell.

Section Engine.

Variable expf : float32 -> float32.
Variable alpha : float32.
Variables width height size : Z.

(** Program order on every rank and in every round. *)
Definition sequential : schedule :=
  λ _ rank, region_cells width (local_eff_start height size rank)
                               (local_eff_end height size rank).

(** A schedule runs every cell of each rank's effective region once. *)
Definition schedule_ok (sch : schedule) : Prop :=
  ∀ iter rank, sch iter rank ≡ₚ sequential iter rank.

(** [memcpy(next, curr)] followed by the loop nest. *)
Definition local_next (order : list cell) (curr : list Z) : list Z :=
  stencil_pass expf alpha width curr curr order.

(** The send buffer of a rank: [local_count] bytes from
    [next + local_eff_start * width * 3]. *)
Definition send_block (rank : Z) (next : list Z) : list Z :=
  take (Z.to_nat (local_count width height size rank))
       (drop (Z.to_nat (local_eff_start height size rank * width * 3)) next).

(** [MPI_Allgatherv] as one rank sees it: block [i] of [recvcounts[i]]
    bytes is stored at [recvbuf + displs[i]].  A negative count is an
    error of the call ([None]). *)
Definition MPI_Allgatherv (blocks : list (list Z)) (recvbuf : list Z)
  : option (list Z) :=
  if forallb (λ i, 0 <=? recvcounts width height size i) (seqZ 0 size) then
    Some (fold_left
            (λ buf '(i, blk),
               list_inserts (Z.to_nat (displs width height size i))
                            (take (Z.to_nat (recvcounts width height size i)) blk)
                            buf)
            (zip (seqZ 0 size) blocks) recvbuf)
  else None.

(** One round of the whole communicator; [world] holds the [curr] buffer
    of rank 0, 1, ... *)
Definition round (sch : schedule) (iter : nat) (world : list (list Z))
  : option (list (list Z)) :=
  let blocks :=
    imap (λ r curr, send_block (Z.of_nat r)
                      (local_next (sch iter (Z.of_nat r)) curr)) world in
  mapM (MPI_Allgatherv blocks) world.

Fixpoint rounds (sch : schedule) (n iter : nat) (world : list (list Z))
  : option (list (list Z)) :=
  match n with
  | O => Some world
  | S n' =>
      match round sch iter world with
      | Some world' => rounds sch n' (S iter) world'
      | None => None
      end
  end.

End Engine.

(** The output buffer of rank [rank] when every rank of a communicator of
    [size] processes calls the function on the same [input]. *)
Definition graph_diffusion_rgb_parallel_sched (expf : float32 → float32)
    (sch : schedule) (input : PPMImage) (alpha : float32) (iterations : Z)
    (rank size : Z) : option (list Z) :=
  match rounds expf alpha (width input) (height input) size sch
               (Z.to_nat iterations) 0
               (replicate (Z.to_nat size) (data input)) with
  | Some world => world !! Z.to_nat rank
  | None => None
  end.

Definition graph_diffusion_rgb_parallel (expf : float32 → float32)
    (input : PPMImage) (alpha : float32) (iterations : Z) (rank size : Z)
  : option (list Z) :=
  graph_diffusion_rgb_parallel_sched expf
    (sequential (width input) (height input) size) input alpha iterations rank size.

(** ** The single-process program (serial lines 62-109) *)

Section Serial.

Variable expf : float32 -> float32.

(** One turn of the [iter] loop on the pair [(temp, output->data)]: the
    loop nest reads [temp] and stores into [output->data], then the two
    pointers are swapped. *)
Definition serial_step (alpha : float32) (width height : Z)
    (st : list Z * list Z) : list Z * list Z :=
  let '(temp, out) := st in
  (stencil_pass expf alpha width temp out (region_cells width 1 (height - 1)),
   temp).

(** [output_data] is the content of [output->data] on entry: [main]
    passes a block fresh from [malloc]. *)
Definition graph_diffusion_rgb (input : PPMImage) (output_data : list Z)
    (alpha : float32) (iterations : Z) : list Z :=
  let '(temp, out) :=
    Nat.iter (Z.to_nat iterations)
             (serial_step alpha (width input) (height input))
             (data input, output_data) in
  if Z.rem iterations 2 =? 1 then temp else out.

End Serial.

(** The round of the specification on one full-image buffer: every interior
    cell recomputed from the snapshot. *)
Definition reference_round (expf : float32 → float32) (alpha : float32)
    (width height : Z) (curr : list Z) : list Z :=
  stencil_pass expf alpha width curr curr (region_cells width 1 (height - 1)).

(** ** The two [main] functions *)

Inductive event :=
| EvUsage
| EvIterationsMessage
| EvBcastFlag (error_flag : Z)
| EvBcastImage (width height : Z) (data : list Z)
| EvDiffusion
| EvWrite (width height : Z) (data : list Z)
| EvTiming
| EvFinalize.

(** How a process ends: it returns [code] from [main]; or the MPI library
    aborts the job on an erroneous call; or the behaviour is undefined
    ([fprintf] on the null stream of a failed [fopen], or an MPI job one of
    whose processes never reaches [MPI_Finalize]). *)
Inductive outcome :=
| Exit (code : Z)
| Aborted
| Undefined.

(** Hybrid [main], lines 179-248, on rank [rank]: the checks and the
    start-up broadcasts.  [loaded] is what [read_ppm] returns on rank 0; the
    other ranks learn it from the broadcast flag.  Either the process
    returns ([inl]) or it goes on to the computation with the image
    ([inr]). *)
Definition hybrid_startup (argc iterations : Z) (loaded : option PPMImage)
    (rank : Z) : (list event * outcome) + (list event * PPMImage) :=
  if negb (argc =? 5) then
    inl ((if rank =? 0 then [EvUsage] else []) ++ [EvFinalize], Exit 1)
  else if iterations <=? 0 then
    inl ((if rank =? 0 then [EvIterationsMessage] else []) ++ [EvFinalize], Exit 1)
  else
    match loaded with
    | None => inl ([EvBcastFlag 1; EvFinalize], Exit 1)
    | Some input =>
        inr ([EvBcastFlag 0; EvBcastImage (width input) (height input) (data input)],
             input)
    end.

(** Hybrid [main] as a whole on rank [rank] of [size].  [out_opens] tells
    whether the [fopen] of [write_ppm] succeeds on rank 0.  [write_ppm] does
    not test its result: when it fails, rank 0 calls [fprintf] on a null
    stream right after the diffusion, and the other ranks call
    [MPI_Finalize], which is collective, without rank 0. *)
Definition hybrid_main (expf : float32 → float32) (argc : Z) (alpha : float32)
    (iterations : Z) (loaded : option PPMImage) (out_opens : bool) (rank size : Z)
  : list event * outcome :=
  match hybrid_startup argc iterations loaded rank with
  | inl r => r
  | inr (tr, input) =>
      match graph_diffusion_rgb_parallel expf input alpha iterations rank size with
      | None => (tr ++ [EvDiffusion], Aborted)
      | Some out =>
          if out_opens then
            (tr ++ [EvDiffusion]
                ++ (if rank =? 0
                    then [EvWrite (width input) (height input) out; EvTiming]
                    else [])
                ++ [EvFinalize],
             Exit 0)
          else if rank =? 0 then (tr ++ [EvDiffusion], Undefined)
          else (tr ++ [EvDiffusion; EvFinalize], Undefined)
      end
  end.

(** Serial [main]; [heap] is the content of the block [malloc] returns for
    [output->data], and [out_opens] tells whether the [fopen] of [write_ppm]
    succeeds.  When it fails, [write_ppm] calls [fprintf] on a null stream,
    after the diffusion and its timing line. *)
Definition serial_main (expf : float32 → float32) (argc : Z) (alpha : float32)
    (iterations : Z) (loaded : option PPMImage) (out_opens : bool) (heap : list Z)
  : list event * outcome :=
  if negb (argc =? 5) then ([EvUsage], Exit 1)
  else if iterations <=? 0 then ([EvIterationsMessage], Exit 1)
  else
    match loaded with
    | None => ([], Exit 1)
    | Some input =>
        if out_opens then
          ([EvDiffusion; EvTiming;
            EvWrite (width input) (height input)
                    (graph_diffusion_rgb expf input heap alpha iterations);
            EvTiming],
           Exit 0)
        else ([EvDiffusion; EvTiming], Undefined)
    end.

(** ** PPM files ([read_ppm] and [write_ppm] of the two graph programs) *)

(** A file is the list of its bytes.  [int] is taken to be 32 bits wide. *)
Definition int_ok (n : Z) : bool := (- 2147483648 <=? n) && (n <=? 2147483647).

(** [isspace] and [isdigit] in the C locale. *)
Definition isspace (c : Z) : bool := (c =? 32) || ((9 <=? c) && (c <=? 13)).
Definition isdigit (c : Z) : bool := (48 <=? c) && (c <=? 57).

Fixpoint skip_space (l : list Z) : list Z :=
  match l with
  | c :: r => if isspace c then skip_space r else l
  | [] => []
  end.

(** The directive [%2s]: white space is skipped, then at most two
    characters that are not white space are stored; [None] at the end of
    the input.  The result is the string and the unread input. *)
Definition scan_s2 (l : list Z) : option (list Z * list Z) :=
  match skip_space l with
  | [] => None
  | c1 :: [] => Some ([c1], [])
  | c1 :: (c2 :: r') as r => if isspace c2 then Some ([c1], r) else Some ([c1; c2], r')
  end.

(** The digits of a [%d] field, accumulated from the left. *)
Fixpoint scan_digits (l : list Z) (acc : Z) : Z * list Z :=
  match l with
  | c :: r => if isdigit c then scan_digits r (acc * 10 + (c - 48)) else (acc, l)
  | [] => (acc, [])
  end.

(** The directive [%d]: white space is skipped, then an optional sign and
    the longest run of digits are read.  Without a digit the conversion
    fails; the sign, if any, has been consumed. *)
Definition scan_d (l : list Z) : option Z * list Z :=
  let l0 := skip_space l in
  let '(negative, l1) :=
    match l0 with
    | c :: r => if c =? 45 then (true, r) else if c =? 43 then (false, r) else (false, l0)
    | [] => (false, [])
    end in
  match l1 with
  | c :: _ =>
      if isdigit c then
        let '(n, rest) := scan_digits l1 0 in
        (Some (if negative then - n else n), rest)
      else (None, l1)
  | [] => (None, [])
  end.

Inductive load_error :=
| Err_open | Err_version | Err_not_P6 | Err_dimensions | Err_data.

(** What [read_ppm] does: it returns an image, or it prints a message and
    returns [NULL], or its behaviour is undefined (a number that does not
    fit an [int], a negative byte count). *)
Inductive load_result :=
| Loaded (img : PPMImage)
| Load_failed (e : load_error)
| Load_undefined.

(** [read_ppm]; [file] is [None] when [fopen] fails.  [malloc] is taken to
    succeed. *)
Definition read_ppm (file : option (list Z)) : load_result :=
  match file with
  | None => Load_failed Err_open
  | Some bytes =>
      match scan_s2 bytes with
      | None => Load_failed Err_version
      | Some (version, r0) =>
          if negb (nth 1 version 0 =? 54) then Load_failed Err_not_P6
          else
            match scan_d r0 with
            | (None, _) => Load_failed Err_dimensions
            | (Some w, r1) =>
                if negb (int_ok w) then Load_undefined
                else
                  match scan_d r1 with
                  | (None, _) => Load_failed Err_dimensions
                  | (Some h, r2) =>
                      if negb (int_ok h) then Load_undefined
                      else
                        let '(maxval, r3) := scan_d r2 in
                        if negb (from_option int_ok true maxval) then Load_undefined
                        else
                          let r4 := drop 1 r3 in
                          let n := w * h * 3 in
                          if negb (int_ok (w * h) && int_ok n) then Load_undefined
                          else if n <? 0 then Load_undefined
                          else if Z.of_nat (length r4) <? n then Load_failed Err_data
                          else Loaded {| width := w; height := h;
                                         data := take (Z.to_nat n) r4 |}
                  end
            end
      end
  end.

(** The decimal digits of a natural number, most significant first;
    [fuel] bounds the number of digits. *)
Fixpoint digits_fuel (fuel : nat) (n : Z) (acc : list Z) : list Z :=
  match fuel with
  | O => acc
  | S fuel' =>
      let acc' := (48 + n mod 10) :: acc in
      if n / 10 =? 0 then acc' else digits_fuel fuel' (n / 10) acc'
  end.

(** What [%d] prints. *)
Definition print_d (n : Z) : list Z :=
  if n <? 0 then 45 :: digits_fuel (S (Z.to_nat (- n))) (- n) []
  else digits_fuel (S (Z.to_nat n)) n [].

(** The bytes [write_ppm] writes when the file opens: the header
    ["P6\n%d %d\n255\n"] and [width * height * 3] bytes of data. *)
Definition write_ppm (img : PPMImage) : list Z :=
  [80; 54; 10] ++ print_d (width img) ++ [32] ++ print_d (height img)
  ++ [10; 50; 53; 53; 10]
  ++ take (Z.to_nat (width img * height img * 3)) (data img).

(** The header of a P6-like file with any first character and any maximum
    value. *)
Definition ppm_header (c0 : Z) (w h maxval : Z) : list Z :=
  [c0; 54; 10] ++ print_d w ++ [32] ++ print_d h ++ [10] ++ print_d maxval ++ [10].

(** ** The median filter (serial/median_denoise_rgb.c, lines 61-94) *)

(** [unsigned char window[9]] for the cell [(y, x, c)]: the 3x3
    neighbourhood, row by row. *)
Definition window (width : Z) (data : list Z) (y x c : Z) : list Z :=
  dy ← seqZ (-1) 3; dx ← seqZ (-1) 3; [rd data (idx width (y + dy) (x + dx) c)].

(** [if (window[i] > window[j]) { swap }] *)
Definition compare_swap (i j : nat) (l : list Z) : list Z :=
  if l !!! i >? l !!! j then <[j := l !!! i]> (<[i := l !!! j]> l) else l.

(** The two nested loops over [i < n] and [i < j < n]. *)
Definition sort_loops (n : nat) (l : list Z) : list Z :=
  fold_left
    (λ l i, fold_left (λ l j, compare_swap i j l) (seq (S i) (n - S i)) l)
    (seq 0 n) l.

(** The value stored for a cell: [window[4]] after the sort. *)
Definition median_value (width : Z) (data : list Z) (y x c : Z) : Z :=
  sort_loops 9 (window width data y x c) !!! 4%nat.

(** The loop body of [median_filter_rgb] for one cell. *)
Definition median_cell (width : Z) (data : list Z) (cl : cell) : Z :=
  let '(y, x, c) := cl in median_value width data y x c.

(** [median_filter_rgb]: [output_data] is the content of [output->data] on
    entry; the function returns its content on exit. *)
Definition median_filter_rgb (input : PPMImage) (output_data : list Z) : list Z :=
  fold_left
    (λ out cl,
       wr out (cell_idx (width input) cl) (median_cell (width input) (data input) cl))
    (region_cells (width input) 1 (height input - 1)) output_data.

(** ** The MPI median filter (mpi/median_denoise_rgb.c, lines 73-125) *)

Section MedianPartition.

Variables width height size : Z.

(** [int rows_per_process = height / size;] *)
Definition rows_per_process : Z := Z.quot height size.

(** [int start_row = rank * rows_per_process;] *)
Definition start_row (rank : Z) : Z := rank * rows_per_process.

(** [int end_row = (rank == size - 1) ? height : start_row + rows_per_process;] *)
Definition end_row (rank : Z) : Z :=
  if rank =? size - 1 then height else start_row rank + rows_per_process.

(** The count a rank passes to [MPI_Gather] as its send count, and the
    count rank 0 expects from every rank. *)
Definition gather_sendcount (rank : Z) : Z :=
  width * (end_row rank - start_row rank) * 3.

Definition gather_recvcount : Z := width * rows_per_process * 3.

End MedianPartition.

(** ** Sample inputs *)

(** A stand-in for [expf] that is right at the zeros. *)
Definition expf_unit : float32 → float32 := λ _, one.

(** The arguments the programs can pass to [expf] are the floats
    [-(d*d)/800] for a difference [d] of two bytes.  For [|d|] from 1 to 255
    the table gives the argument (as mantissa and exponent of its absolute
    value) and the binary32 value nearest to its exponential. *)
Definition expf_table : list (positive * Z * (positive * Z)) :=
  [
    (10737418%positive, -33, (16756258%positive, -24));
    (10737418%positive, -31, (16693539%positive, -24));
    (12079596%positive, -30, (16589530%positive, -24));
    (10737418%positive, -29, (16445005%positive, -24));
    (8388608%positive, -28, (16261035%positive, -24));
    (12079596%positive, -28, (16038976%positive, -24));
    (16441672%positive, -28, (15780449%positive, -24));
    (10737418%positive, -27, (15487322%positive, -24));
    (13589545%positive, -27, (15161689%positive, -24));
    (8388608%positive, -26, (14805841%positive, -24));
    (10150216%positive, -26, (14422244%positive, -24));
    (12079596%positive, -26, (14013509%positive, -24));
    (14176748%positive, -26, (13582358%positive, -24));
    (16441672%positive, -26, (13131603%positive, -24));
    (9437184%positive, -25, (12664107%positive, -24));
    (10737418%positive, -25, (12182759%positive, -24));
    (12121539%positive, -25, (11690444%positive, -24));
    (13589545%positive, -25, (11190014%positive, -24));
    (15141437%positive, -25, (10684262%positive, -24));
    (8388608%positive, -24, (10175896%positive, -24));
    (9248440%positive, -24, (9667520%positive, -24));
    (10150216%positive, -24, (9161608%positive, -24));
    (11093934%positive, -24, (8660494%positive, -24));
    (12079596%positive, -24, (16332695%positive, -25));
    (13107200%positive, -24, (15362338%positive, -25));
    (14176748%positive, -24, (14413553%positive, -25));
    (15288238%positive, -24, (13489599%positive, -25));
    (16441672%positive, -24, (12593351%positive, -25));
    (8818524%positive, -23, (11727294%positive, -25));
    (9437184%positive, -23, (10893529%positive, -25));
    (10076815%positive, -23, (10093776%positive, -25));
    (10737418%positive, -23, (9329384%positive, -25));
    (11418993%positive, -23, (8601348%positive, -25));
    (12121539%positive, -23, (15820651%positive, -26));
    (12845056%positive, -23, (14513310%positive, -26));
    (13589545%positive, -23, (13280757%positive, -26));
    (14355005%positive, -23, (12122536%positive, -26));
    (15141437%positive, -23, (11037695%positive, -26));
    (15948841%positive, -23, (10024841%positive, -26));
    (8388608%positive, -22, (9082197%positive, -26));
    (8813281%positive, -22, (16415293%positive, -27));
    (9248440%positive, -22, (14797576%positive, -27));
    (9694085%positive, -22, (13305977%positive, -27));
    (10150216%positive, -22, (11934857%positive, -27));
    (10616832%positive, -22, (10678297%positive, -27));
    (11093934%positive, -22, (9530177%positive, -27));
    (11581522%positive, -22, (8484265%positive, -27));
    (12079596%positive, -22, (15068559%positive, -28));
    (12588155%positive, -22, (13347919%positive, -28));
    (13107200%positive, -22, (11794231%positive, -28));
    (13636731%positive, -22, (10395370%positive, -28));
    (14176748%positive, -22, (9139543%positive, -28));
    (14727250%positive, -22, (16030732%positive, -29));
    (15288238%positive, -22, (14023825%positive, -29));
    (15859712%positive, -22, (12237533%positive, -29));
    (16441672%positive, -22, (10652106%positive, -29));
    (8517059%positive, -21, (9248926%positive, -29));
    (8818524%positive, -21, (16021073%positive, -30));
    (9125233%positive, -21, (13841270%positive, -30));
    (9437184%positive, -21, (11928194%positive, -30));
    (9754378%positive, -21, (10253868%positive, -30));
    (10076815%positive, -21, (8792552%positive, -30));
    (10404495%positive, -21, (15041337%positive, -31));
    (10737418%positive, -21, (12833413%positive, -31));
    (11075584%positive, -21, (10922251%positive, -31));
    (11418993%positive, -21, (9272489%positive, -31));
    (11767644%positive, -21, (15704531%positive, -32));
    (12121539%positive, -21, (13265929%positive, -32));
    (12480676%positive, -21, (11178018%positive, -32));
    (12845056%positive, -21, (9395203%positive, -32));
    (13214679%positive, -21, (15754033%positive, -33));
    (13589545%positive, -21, (13175333%positive, -33));
    (13969654%positive, -21, (10991215%positive, -33));
    (14355005%positive, -21, (9146274%positive, -33));
    (14745600%positive, -21, (15184020%positive, -34));
    (15141437%positive, -21, (12572272%positive, -34));
    (15542518%positive, -21, (10383764%positive, -34));
    (15948841%positive, -21, (8554809%positive, -34));
    (16360407%positive, -21, (14060800%positive, -35));
    (8388608%positive, -20, (11526408%positive, -35));
    (8599634%positive, -20, (9425235%positive, -35));
    (8813281%positive, -20, (15375698%positive, -36));
    (9029550%positive, -20, (12510121%positive, -36));
    (9248440%positive, -20, (10153193%positive, -36));
    (9469952%positive, -20, (16439470%positive, -37));
    (9694085%positive, -20, (13275699%positive, -37));
    (9920840%positive, -20, (10694021%positive, -37));
    (10150216%positive, -20, (8592887%positive, -37));
    (10382213%positive, -20, (13774684%positive, -38));
    (10616832%positive, -20, (11013065%positive, -38));
    (10854072%positive, -20, (8783128%positive, -38));
    (11093934%positive, -20, (13974435%positive, -39));
    (11336417%positive, -20, (11089290%positive, -39));
    (11581522%positive, -20, (8777832%positive, -39));
    (11829248%positive, -20, (13861659%positive, -40));
    (12079596%positive, -20, (10917600%positive, -40));
    (12332564%positive, -20, (8577368%positive, -40));
    (12588155%positive, -20, (13443877%positive, -41));
    (12846367%positive, -20, (10509437%positive, -41));
    (13107200%positive, -20, (16389994%positive, -42));
    (13370655%positive, -20, (12748591%positive, -42));
    (13636731%positive, -20, (9891452%positive, -42));
    (13905428%positive, -20, (15310956%positive, -43));
    (14176748%positive, -20, (11820292%positive, -43));
    (14450688%positive, -20, (9102674%positive, -43));
    (14727250%positive, -20, (13984720%positive, -44));
    (15006433%positive, -20, (10715761%positive, -44));
    (15288238%positive, -20, (16380845%positive, -45));
    (15572664%positive, -20, (12489183%positive, -45));
    (15859712%positive, -20, (9498297%positive, -45));
    (16149381%positive, -20, (14411260%positive, -46));
    (16441672%positive, -20, (10905415%positive, -46));
    (16736584%positive, -20, (16463678%positive, -47));
    (8517059%positive, -19, (12396400%positive, -47));
    (8667136%positive, -19, (9310632%positive, -47));
    (8818524%positive, -19, (13951045%positive, -48));
    (8971223%positive, -19, (10426016%positive, -48));
    (9125233%positive, -19, (15544402%positive, -49));
    (9280553%positive, -19, (11558848%positive, -49));
    (9437184%positive, -19, (8573716%positive, -49));
    (9595126%positive, -19, (12687256%positive, -50));
    (9754378%positive, -19, (9363779%positive, -50));
    (9914941%positive, -19, (13787281%positive, -51));
    (10076815%positive, -19, (10124886%positive, -51));
    (10240000%positive, -19, (14833570%positive, -52));
    (10404495%positive, -19, (10838922%positive, -52));
    (10570301%positive, -19, (15800488%positive, -53));
    (10737418%positive, -19, (11487856%positive, -53));
    (10905846%positive, -19, (16662934%positive, -54));
    (11075584%positive, -19, (12054490%positive, -54));
    (11246633%positive, -19, (8698818%positive, -54));
    (11418993%positive, -19, (12523210%positive, -55));
    (11592663%positive, -19, (8991992%positive, -55));
    (11767644%positive, -19, (12880723%positive, -56));
    (11943936%positive, -19, (9202559%positive, -56));
    (12121539%positive, -19, (13116591%positive, -57));
    (12300452%positive, -19, (9324342%positive, -57));
    (12480676%positive, -19, (13223897%positive, -58));
    (12662211%positive, -19, (9353729%positive, -58));
    (12845056%positive, -19, (13199423%positive, -59));
    (13029212%positive, -19, (9289859%positive, -59));
    (13214679%positive, -19, (13043897%positive, -60));
    (13401457%positive, -19, (9134602%positive, -60));
    (13589545%positive, -19, (12761941%positive, -61));
    (13778944%positive, -19, (8892582%positive, -61));
    (13969654%positive, -19, (12361838%positive, -62));
    (14161674%positive, -19, (8570834%positive, -62));
    (14355005%positive, -19, (11855153%positive, -63));
    (14549647%positive, -19, (16357061%positive, -64));
    (14745600%positive, -19, (11256086%positive, -64));
    (14942863%positive, -19, (15453057%positive, -65));
    (15141437%positive, -19, (10580969%positive, -65));
    (15341322%positive, -19, (14453749%positive, -66));
    (15542518%positive, -19, (9847355%positive, -66));
    (15745024%positive, -19, (13384543%positive, -67));
    (15948841%positive, -19, (9073431%positive, -67));
    (16153969%positive, -19, (12271102%positive, -68));
    (16360407%positive, -19, (16554285%positive, -69));
    (16568156%positive, -19, (11138362%positive, -69));
    (8388608%positive, -18, (14951208%positive, -70));
    (8493793%positive, -18, (10009585%positive, -70));
    (8599634%positive, -18, (13369005%positive, -71));
    (8706130%positive, -18, (8905677%positive, -71));
    (8813281%positive, -18, (11835311%positive, -72));
    (8921088%positive, -18, (15689373%positive, -73));
    (9029550%positive, -18, (10373287%positive, -73));
    (9138668%positive, -18, (13682655%positive, -74));
    (9248440%positive, -18, (9001417%positive, -74));
    (9358868%positive, -18, (11813936%positive, -75));
    (9469952%positive, -18, (15466481%positive, -76));
    (9581691%positive, -18, (10098882%positive, -76));
    (9694085%positive, -18, (13155275%positive, -77));
    (9807135%positive, -18, (8546923%positive, -77));
    (9920840%positive, -18, (11078079%positive, -78));
    (10035200%positive, -18, (14323001%positive, -79));
    (10150216%positive, -18, (9236061%positive, -79));
    (10265887%positive, -18, (11881859%positive, -80));
    (10382213%positive, -18, (15247439%positive, -81));
    (10499195%positive, -18, (9758714%positive, -81));
    (10616832%positive, -18, (12460433%positive, -82));
    (10735124%positive, -18, (15870424%positive, -83));
    (10854072%positive, -18, (10081546%positive, -83));
    (10973676%positive, -18, (12776414%positive, -84));
    (11093934%positive, -18, (16151293%positive, -85));
    (11214848%positive, -18, (10183307%positive, -85));
    (11336417%positive, -18, (12809000%positive, -86));
    (11458642%positive, -18, (16071441%positive, -87));
    (11581522%positive, -18, (10057251%positive, -87));
    (11705057%positive, -18, (12555922%positive, -88));
    (11829248%positive, -18, (15636196%positive, -89));
    (11954094%positive, -18, (9711773%positive, -89));
    (12079596%positive, -18, (12033975%positive, -90));
    (12205752%positive, -18, (14874288%positive, -91));
    (12332564%positive, -18, (9169518%positive, -91));
    (12460032%positive, -18, (11277167%positive, -92));
    (12588155%positive, -18, (13834656%positive, -93));
    (12716933%positive, -18, (8464896%positive, -93));
    (12846367%positive, -18, (10332800%positive, -94));
    (12976456%positive, -18, (12581411%positive, -95));
    (13107200%positive, -18, (15281131%positive, -96));
    (13238600%positive, -18, (9256885%positive, -96));
    (13370655%positive, -18, (11187140%positive, -97));
    (13503365%positive, -18, (13486155%positive, -98));
    (13636731%positive, -18, (16216997%positive, -99));
    (13770752%positive, -18, (9726074%positive, -99));
    (13905428%positive, -18, (11637229%positive, -100));
    (14040760%positive, -18, (13889121%positive, -101));
    (14176748%positive, -18, (16535342%positive, -102));
    (14313390%positive, -18, (9818341%positive, -102));
    (14450688%positive, -18, (11630710%positive, -103));
    (14588641%positive, -18, (13743243%positive, -104));
    (14727250%positive, -18, (16198896%positive, -105));
    (14866514%positive, -18, (9522840%positive, -105));
    (15006433%positive, -18, (11168437%positive, -106));
    (15147008%positive, -18, (13065665%positive, -107));
    (15288238%positive, -18, (15247038%positive, -108));
    (15430124%positive, -18, (8874066%positive, -108));
    (15572664%positive, -18, (10304012%positive, -109));
    (15715860%positive, -18, (11934473%positive, -110));
    (15859712%positive, -18, (13788384%positive, -111));
    (16004219%positive, -18, (15890528%positive, -112));
    (16149381%positive, -18, (9133730%positive, -112));
    (16295199%positive, -18, (10473725%positive, -113));
    (16441672%positive, -18, (11980338%positive, -114));
    (16588800%positive, -18, (13669474%positive, -115));
    (16736584%positive, -18, (15557785%positive, -116));
    (8442511%positive, -17, (8831414%positive, -116));
    (8517059%positive, -17, (10001211%positive, -117));
    (8591933%positive, -17, (11297824%positive, -118));
    (8667136%positive, -17, (12730541%positive, -119));
    (8742666%positive, -17, (14309204%positive, -120));
    (8818524%positive, -17, (16043431%positive, -121));
    (8894710%positive, -17, (8971442%positive, -121));
    (8971223%positive, -17, (10008611%positive, -122));
    (9048064%positive, -17, (11137777%positive, -123));
    (9125233%positive, -17, (12363358%positive, -124));
    (9202729%positive, -17, (13689604%positive, -125));
    (9280553%positive, -17, (15120235%positive, -126));
    (9358705%positive, -17, (16658634%positive, -127));
    (9437184%positive, -17, (9153912%positive, -127));
    (9515991%positive, -17, (10034999%positive, -128));
    (9595126%positive, -17, (10973397%positive, -129));
    (9674588%positive, -17, (11969648%positive, -130));
    (9754378%positive, -17, (13023715%positive, -131));
    (9834496%positive, -17, (14135188%positive, -132));
    (9914941%positive, -17, (15303290%positive, -133));
    (9995715%positive, -17, (16526386%positive, -134));
    (10076815%positive, -17, (8901452%positive, -134));
    (10158244%positive, -17, (9564971%positive, -135));
    (10240000%positive, -17, (10252340%positive, -136));
    (10322084%positive, -17, (10961641%positive, -137));
    (10404495%positive, -17, (11690811%positive, -138));
    (10487235%positive, -17, (12437227%positive, -139));
    (10570301%positive, -17, (13198433%positive, -140));
    (10653696%positive, -17, (13971114%positive, -141))
  ].

(** A stand-in for [expf] on the arguments of the table and on the zeros;
    anything else is mapped to a NaN. *)
Definition expf_ref (x : float32) : float32 :=
  match x with
  | S754_zero _ => one
  | S754_finite true m e =>
      match find (λ row, (Pos.eqb (fst (fst row)) m && Z.eqb (snd (fst row)) e)%bool)
                 expf_table with
      | Some (_, (m', e')) => S754_finite false m' e'
      | None => S754_nan
      end
  | _ => S754_nan
  end.

(** [0.5f] and [0.25f] *)
Definition half : float32 := div (of_int 1) (of_int 2).

(** [0.25f] *)
Definition quarter : float32 := div (of_int 1) (of_int 4).

(** A gray image: the three channels of a pixel hold the same value. *)
Definition gray_image (w h : Z) (pixels : list Z) : PPMImage :=
  {| width := w; height := h; data := p ← pixels; [p; p; p] |}.

(** 3x3, a dark pixel in a lighter frame. *)
Definition dot_image : PPMImage :=
  gray_image 3 3 [ 11; 11; 11;
                   11;  0; 11;
                   11; 11; 11 ].

(** 5x5: the centre pixel sits between two light and two dark neighbours;
    the two light ones sit among lighter pixels still. *)
Definition cross_image : PPMImage :=
  gray_image 5 5 [ 190; 190; 190; 190; 190;
                   190; 190; 160; 190; 190;
                    40;  40; 100; 160; 190;
                    40;  40;  40; 190; 190;
                    40;  40;  40;  40; 190 ].

(** The cells of every round in the reverse of program order. *)
Definition reversed (width height size : Z) : schedule :=
  λ iter rank, reverse (sequential width height size iter rank).

(** A [w] by [h] image with every byte [v]. *)
Definition flat_image (w h v : Z) : PPMImage :=
  {| width := w; height := h; data := replicate (Z.to_nat (w * h * 3)) v |}.

(** ** Auxiliary notions *)

#[local] Instance spec_float_eq_dec : EqDecision spec_float.
Proof. solve_decision. Defined.

(** What is checked for each byte value [v]: with unit weights the weighted
    mean of four copies of [v] is [v]; [v - v] is [+0]; and [v + (+-0)],
    clamped and cast back, is [v]. *)
Definition mean_check (v : Z) : bool :=
  bool_decide (smooth_value expf_unit v [v; v; v; v] = of_int v).

Definition sub_check (v : Z) : bool :=
  bool_decide (sub (of_int v) (of_int v) = zero).

Definition keep_check (v : Z) : bool :=
  (to_uchar (clamp (add (of_int v) (S754_zero true))) =? v)
  && (to_uchar (clamp (add (of_int v) (S754_zero false))) =? v).

(** Cells whose column and channel are in range: their indices are pairwise
    distinct. *)
Definition cells_in (w : Z) (order : list cell) : Prop :=
  ∀ y x c, (y, x, c) ∈ order → 0 <= x < w ∧ 0 <= c < 3.

(** The all-gather with the block of rank [i] given as [block_of i]. *)
Definition gather (width height size : Z) (block_of : Z → list Z)
    (ranks : list Z) (recvbuf : list Z) : list Z :=
  fold_left
    (λ buf i,
       list_inserts (Z.to_nat (displs width height size i))
                    (take (Z.to_nat (recvcounts width height size i)) (block_of i))
                    buf)
    ranks recvbuf.

(** Byte [j] lies in the block of rank [i]. *)
Definition covers (width height size : Z) (i : Z) (j : Z) : Prop :=
  displs width height size i <= j
  < displs width height size i + recvcounts width height size i.

(** The block rank [i] sends in round [iter] when every rank holds [curr]. *)
Definition block_of (expf : float32 → float32) (alpha : float32)
    (width height size : Z) (sch : schedule) (iter : nat) (curr : list Z)
    (i : Z) : list Z :=
  send_block width height size i
    (local_next expf alpha width (sch iter i) curr).

(** Two buffers with the same bytes in the border rows and columns. *)
Definition same_border (w h : Z) (a b : list Z) : Prop :=
  ∀ y x c, 0 <= y → 0 <= x < w → 0 <= c < 3 →
    y <= 0 ∨ h - 1 <= y ∨ x = 0 ∨ x = w - 1 →
    a !! Z.to_nat (idx w y x c) = b !! Z.to_nat (idx w y x c).

(** A list that starts with a digit. *)
Definition digit_first (l : list Z) : Prop :=
  ∃ c r, l = c :: r ∧ isdigit c = true.

(** A list that does not start with a digit. *)
Definition no_digit_first (l : list Z) : Prop :=
  match l with c :: _ => isdigit c = false | [] => True end.

(** Positions below [i] hold values below everything to their right. *)
Definition ordered_upto (i : nat) (l : list Z) : Prop :=
  ∀ a b : nat, (a < i)%nat → (a < b < length l)%nat → l !!! a <= l !!! b.

(** ** Facts on binary32 arithmetic *)




Lemma clamp_cases (r : float32) :
  clamp r =
    if is_nan r then of_int 0
    else if gt (of_int 0) r then of_int 0
    else if gt r (of_int 255) then of_int 255
    else r.
Proof.
  unfold clamp, fmaxf, fminf, gt.
  change (of_int 0) with (S754_zero false).
  change (of_int 255) with (S754_finite false 16711680 (-16)).
  destruct r as [s|s| |s m e]; simpl; try reflexivity.
  - destruct s; reflexivity.
  - destruct s; [reflexivity|].
    change (SFltb (S754_finite false m e) (S754_zero false)) with false.
    cbv iota.
    destruct (SFltb (S754_finite false 16711680 (-16)) (S754_finite false m e));
      reflexivity.
Qed.

Lemma digits2_pos_bound (m : positive) : Z.pos m < 2 ^ Z.pos (digits2_pos m).
Proof.
  induction m as [p IH|p IH|]; cbn [digits2_pos].
  - rewrite Pos2Z.inj_succ, Z.pow_succ_r, Pos2Z.inj_xI by lia. lia.
  - rewrite Pos2Z.inj_succ, Z.pow_succ_r, Pos2Z.inj_xO by lia. lia.
  - reflexivity.
Qed.

(** The mantissa of a valid binary32 number has at most 24 bits. *)
Lemma valid_mantissa (s : bool) (m : positive) (e : Z) :
  valid (S754_finite s m e) = true → Z.pos m < 2 ^ 24.
Proof.
  unfold valid, valid_binary, bounded, canonical_mantissa, fexp, emin, prec, emax.
  intros H. apply andb_prop in H as [H _]. apply Z.eqb_eq in H.
  pose proof (digits2_pos_bound m) as Hd.
  assert (Z.pos (digits2_pos m) <= 24) as Hle by lia.
  pose proof (Z.pow_le_mono_r 2 _ 24 ltac:(lia) Hle). lia.
Qed.

(** The value handed to the cast is the float of an integral part between 0
    and 255: the cast never leaves the range of [unsigned char]. *)
Lemma clamp_range (r : float32) :
  valid r = true → ∃ z, trunc (clamp r) = Some z ∧ 0 <= z <= 255.
Proof.
  intros Hv. rewrite clamp_cases.
  change (of_int 0) with (S754_zero false).
  change (of_int 255) with (S754_finite false 16711680 (-16)).
  destruct r as [s|s| |s m e].
  - exists 0. destruct s; split; try reflexivity; lia.
  - destruct s; [exists 0 | exists 255]; split; try reflexivity; lia.
  - exists 0. split; [reflexivity | lia].
  - destruct s; [exists 0; split; [reflexivity | lia]|].
    pose proof (valid_mantissa false m e Hv) as Hm.
    unfold is_nan, gt, SFltb, SFcompare. cbv beta iota.
    destruct (Z.compare_spec (-16) e) as [<-|Hlt|Hgt]; cbv beta iota.
    + pose proof (Pos.compare_spec 16711680 m) as HC. unfold Pos.compare in HC.
      destruct HC as [<-|HC|HC]; cbv beta iota.
      * exists 255. split; [reflexivity | lia].
      * exists 255. split; [reflexivity | lia].
      * exists (Z.pos m / 65536). split; [reflexivity|].
        apply Pos2Z.pos_lt_pos in HC. clear Hv Hm.
        pose proof (Pos2Z.is_nonneg m) as H0.
        generalize dependent (Z.pos m). intros M HM H0.
        split; [apply Z.div_pos; lia|].
        apply Z.lt_succ_r, Z.div_lt_upper_bound; lia.
    + exists 255. split; [reflexivity | lia].
    + destruct e as [|p|p]; try lia.
      exists (Z.pos m / 2 ^ Z.pos p). split; [reflexivity|].
      assert (2 ^ 17 <= 2 ^ Z.pos p) as Hp by (apply Z.pow_le_mono_r; lia).
      change (2 ^ 17) with 131072 in Hp. change (2 ^ 24) with 16777216 in Hm.
      split; [apply Z.div_pos; lia|].
      apply Z.lt_succ_r, Z.div_lt_upper_bound; lia.
Qed.



Section StencilFacts.

Variable expf : float32 -> float32.


Lemma accumulate_fold center l ws wv :
  fold_left (accum_step expf center) l (ws, wv)
  = (fold_left add (map (weight expf center) l) ws,
     fold_left add (map (fun n => mul (weight expf center n) (of_int n)) l) wv).
Proof.
  revert ws wv. induction l as [|n l IH]; intros ws wv; simpl; [reflexivity|].
  apply IH.
Qed.



End StencilFacts.

(** ** Index arithmetic *)

Lemma idx_bounds (w h y x c : Z) :
  0 <= y < h → 0 <= x < w → 0 <= c < 3 → 0 <= idx w y x c < w * h * 3.
Proof. unfold idx. intros Hy Hx Hc. nia. Qed.

Lemma idx_inj (w y x c y' x' c' : Z) :
  0 <= x < w → 0 <= x' < w → 0 <= c < 3 → 0 <= c' < 3 →
  idx w y x c = idx w y' x' c' → y = y' ∧ x = x' ∧ c = c'.
Proof.
  unfold idx. intros Hx Hx' Hc Hc' E.
  assert (c = c' ∧ y * w + x = y' * w + x') as [-> E'] by lia.
  assert (y = y') as ->.
  { destruct (Z.lt_trichotomy y y') as [H|[H|H]]; [nia|assumption|nia]. }
  repeat split; lia.
Qed.

Lemma buffer_lookup (w h : Z) (buf : list Z) (i : Z) :
  buffer_ok w h buf → 0 <= i < w * h * 3 → is_Some (buf !! Z.to_nat i).
Proof.
  unfold buffer_ok. intros Hlen Hi. apply lookup_lt_is_Some. lia.
Qed.

(** C10.  In a buffer of [width*height*3] bytes, for [y] in [[1,height-2]],
    [x] in [[1,width-2]] and [c] in [{0,1,2}], the index of the cell (read
    from the snapshot and written to the scratch buffer) and the indices of
    its four axis neighbours all lie in [[0, width*height*3)] and address an
    element of the buffer. *)
Theorem stencil_indices_in_bounds (w h : Z) (buf : list Z) (y x c : Z) :
  buffer_ok w h buf →
  1 <= y <= h - 2 → 1 <= x <= w - 2 → 0 <= c <= 2 →
  Forall (λ i, 0 <= i < w * h * 3 ∧ is_Some (buf !! Z.to_nat i))
         [ idx w y x c;
           idx w (y - 1) x c; idx w (y + 1) x c;
           idx w y (x - 1) c; idx w y (x + 1) c ].
Proof.
  intros Hbuf Hy Hx Hc.
  pose proof (idx_bounds w h y x c ltac:(lia) ltac:(lia) ltac:(lia)).
  pose proof (idx_bounds w h (y - 1) x c ltac:(lia) ltac:(lia) ltac:(lia)).
  pose proof (idx_bounds w h (y + 1) x c ltac:(lia) ltac:(lia) ltac:(lia)).
  pose proof (idx_bounds w h y (x - 1) c ltac:(lia) ltac:(lia) ltac:(lia)).
  pose proof (idx_bounds w h y (x + 1) c ltac:(lia) ltac:(lia) ltac:(lia)).
  repeat apply Forall_cons_2; try apply Forall_nil_2;
    (split; [assumption | eapply buffer_lookup; eassumption]).
Qed.

Lemma stencil_indices_in_bounds_witness :
  Forall (λ i, 0 <= i < 4 * 4 * 3
               ∧ is_Some (data (flat_image 4 4 128) !! Z.to_nat i))
         [ idx 4 1 2 0; idx 4 (1 - 1) 2 0; idx 4 (1 + 1) 2 0;
           idx 4 1 (2 - 1) 0; idx 4 1 (2 + 1) 0 ].
Proof.
  apply (stencil_indices_in_bounds 4 4 (data (flat_image 4 4 128)) 1 2 0);
    [reflexivity | lia | lia | lia].
Defined.

(** ** The block decomposition tiles the rows *)

Section PartitionFacts.

Variables height size : Z.
Hypothesis Hheight : 0 <= height.
Hypothesis Hsize : 1 <= size.

Local Abbreviation q := (rows_per_proc height size).
Local Abbreviation e := (extra height size).

Lemma quot_rem_facts : height = size * q + e ∧ 0 <= e < size ∧ 0 <= q.
Proof.
  unfold rows_per_proc, extra.
  rewrite Z.quot_div_nonneg, Z.rem_mod_nonneg by lia.
  pose proof (Z.div_mod height size ltac:(lia)).
  pose proof (Z.mod_pos_bound height size ltac:(lia)).
  pose proof (Z.div_pos height size ltac:(lia) ltac:(lia)).
  lia.
Qed.

Lemma local_rows_nonneg rank : 0 <= local_rows height size rank.
Proof.
  destruct quot_rem_facts as (_ & _ & Hq).
  unfold local_rows. destruct (rank <? e); lia.
Qed.

Lemma local_rows_pos rank : size <= height → 1 <= local_rows height size rank.
Proof.
  destruct quot_rem_facts as (Hh & He & Hq). intros Hle.
  assert (1 <= q) by nia.
  unfold local_rows. destruct (rank <? e); lia.
Qed.

Lemma local_start_0 : local_start height size 0 = 0.
Proof.
  destruct quot_rem_facts as (Hh & He & Hq).
  unfold local_start. destruct (Z.ltb_spec 0 e); lia.
Qed.

(** Rank [rank + 1] starts where rank [rank] ends. *)
Lemma local_end_next rank :
  0 <= rank → local_end height size rank = local_start height size (rank + 1).
Proof.
  destruct quot_rem_facts as (Hh & He & Hq). intros Hr.
  unfold local_end, local_start, local_rows.
  destruct (Z.ltb_spec rank e), (Z.ltb_spec (rank + 1) e); lia.
Qed.

Lemma local_end_last : local_end height size (size - 1) = height.
Proof.
  destruct quot_rem_facts as (Hh & He & Hq).
  unfold local_end, local_start, local_rows.
  destruct (Z.ltb_spec (size - 1) e); lia.
Qed.

Lemma local_start_mono r1 r2 :
  0 <= r1 <= r2 → local_start height size r1 <= local_start height size r2.
Proof.
  intros [H1 H2].
  replace r2 with (r1 + Z.of_nat (Z.to_nat (r2 - r1))) by lia.
  induction (Z.to_nat (r2 - r1)) as [|k IH].
  - replace (r1 + Z.of_nat 0) with r1 by lia. lia.
  - replace (r1 + Z.of_nat (S k)) with (r1 + Z.of_nat k + 1) by lia.
    rewrite <- local_end_next by lia.
    pose proof (local_rows_nonneg (r1 + Z.of_nat k)).
    unfold local_end. lia.
Qed.

Lemma local_end_le_start r1 r2 :
  0 <= r1 < r2 → local_end height size r1 <= local_start height size r2.
Proof.
  intros H. rewrite local_end_next by lia. apply local_start_mono. lia.
Qed.

Lemma local_start_nonneg rank : 0 <= rank → 0 <= local_start height size rank.
Proof.
  intros H. pose proof (local_start_mono 0 rank ltac:(lia)) as Hm.
  rewrite local_start_0 in Hm. exact Hm.
Qed.

Lemma local_end_le_height rank :
  0 <= rank < size → local_end height size rank <= height.
Proof.
  intros H. destruct (Z.eq_dec rank (size - 1)) as [->|Hne].
  - rewrite local_end_last. lia.
  - pose proof local_end_last as Hlast.
    pose proof (local_end_le_start rank (size - 1) ltac:(lia)).
    pose proof (local_rows_nonneg (size - 1)).
    unfold local_end at 1 in Hlast. lia.
Qed.

(** Every row below the end of rank [k] lies in the range of a rank up to
    [k]. *)
Lemma covered_below (k : nat) (y : Z) :
  0 <= y < local_end height size (Z.of_nat k) →
  ∃ rank, 0 <= rank <= Z.of_nat k
          ∧ local_start height size rank <= y < local_end height size rank.
Proof.
  induction k as [|k IH]; intros Hy.
  - exists 0. change (Z.of_nat 0) with 0 in *. rewrite local_start_0. lia.
  - destruct (Z.lt_ge_cases y (local_start height size (Z.of_nat (S k)))) as [Hlt|Hge].
    + replace (Z.of_nat (S k)) with (Z.of_nat k + 1) in Hlt by lia.
      rewrite <- local_end_next in Hlt by lia.
      destruct (IH ltac:(lia)) as (r & Hr & Hin). exists r. lia.
    + exists (Z.of_nat (S k)). lia.
Qed.

Lemma covered (y : Z) :
  0 <= y < height →
  ∃ rank, 0 <= rank < size
          ∧ local_start height size rank <= y < local_end height size rank.
Proof.
  intros Hy. destruct (covered_below (Z.to_nat (size - 1)) y) as (r & Hr & Hin).
  - rewrite Z2Nat.id by lia. rewrite local_end_last. lia.
  - exists r. lia.
Qed.

Lemma ranges_disjoint r1 r2 y :
  0 <= r1 → 0 <= r2 →
  local_start height size r1 <= y < local_end height size r1 →
  local_start height size r2 <= y < local_end height size r2 →
  r1 = r2.
Proof.
  intros H1 H2 Hy1 Hy2.
  destruct (Z.lt_trichotomy r1 r2) as [Hlt|[Heq|Hgt]]; [|assumption|].
  - pose proof (local_end_le_start r1 r2 ltac:(lia)). lia.
  - pose proof (local_end_le_start r2 r1 ltac:(lia)). lia.
Qed.

End PartitionFacts.

(** C3.  For [height >= 1] and [1 <= size <= height] the row ranges
    [[local_start, local_start + local_rows)] of the ranks [0..size-1] are
    non-empty, lie inside [[0,height)], cover every row of [[0,height)] and
    are pairwise disjoint; the table the code builds a second time for all
    ranks ([proc_start], [proc_rows]) holds the same numbers. *)
Theorem partition_tiles (height size : Z) :
  1 <= height → 1 <= size <= height →
  (∀ rank, 0 <= rank < size →
     0 <= local_start height size rank
     ∧ 1 <= local_rows height size rank
     ∧ local_start height size rank + local_rows height size rank <= height)
  ∧ (∀ y, 0 <= y < height →
       ∃ rank, 0 <= rank < size
               ∧ local_start height size rank <= y
                 < local_start height size rank + local_rows height size rank)
  ∧ (∀ r1 r2 y, 0 <= r1 < size → 0 <= r2 < size →
       local_start height size r1 <= y
         < local_start height size r1 + local_rows height size r1 →
       local_start height size r2 <= y
         < local_start height size r2 + local_rows height size r2 →
       r1 = r2)
  ∧ (∀ i, proc_start height size i = local_start height size i
          ∧ proc_rows height size i = local_rows height size i).
Proof.
  intros Hh Hs. repeat split.
  - apply local_start_nonneg; lia.
  - apply local_rows_pos; lia.
  - apply (local_end_le_height height size); lia.
  - intros y Hy. apply (covered height size); lia.
  - intros r1 r2 y H1 H2 Hy1 Hy2.
    apply (ranges_disjoint height size ltac:(lia) ltac:(lia) r1 r2 y); try lia;
      assumption.
Qed.

Lemma partition_tiles_witness :
  (∀ rank, 0 <= rank < 3 →
     0 <= local_start 5 3 rank
     ∧ 1 <= local_rows 5 3 rank
     ∧ local_start 5 3 rank + local_rows 5 3 rank <= 5)
  ∧ (∀ y, 0 <= y < 5 →
       ∃ rank, 0 <= rank < 3
               ∧ local_start 5 3 rank <= y
                 < local_start 5 3 rank + local_rows 5 3 rank)
  ∧ (∀ r1 r2 y, 0 <= r1 < 3 → 0 <= r2 < 3 →
       local_start 5 3 r1 <= y < local_start 5 3 r1 + local_rows 5 3 r1 →
       local_start 5 3 r2 <= y < local_start 5 3 r2 + local_rows 5 3 r2 →
       r1 = r2)
  ∧ (∀ i, proc_start 5 3 i = local_start 5 3 i
          ∧ proc_rows 5 3 i = local_rows 5 3 i).
Proof. apply (partition_tiles 5 3); lia. Defined.

(** ** One pass of the loop nest, pointwise *)

Lemma length_wr (buf : list Z) (i v : Z) : length (wr buf i v) = length buf.
Proof. unfold wr. destruct (0 <=? i); [apply length_insert | reflexivity]. Qed.

Lemma wr_lookup_eq (buf : list Z) (i v : Z) :
  0 <= i < Z.of_nat (length buf) → wr buf i v !! Z.to_nat i = Some v.
Proof.
  intros Hi. unfold wr. destruct (Z.leb_spec 0 i); [|lia].
  apply list_lookup_insert_eq. lia.
Qed.

Lemma wr_lookup_ne (buf : list Z) (i v j : Z) :
  0 <= j → i ≠ j → wr buf i v !! Z.to_nat j = buf !! Z.to_nat j.
Proof.
  intros Hj Hne. unfold wr. destruct (Z.leb_spec 0 i); [|reflexivity].
  apply list_lookup_insert_ne. lia.
Qed.

Lemma rd_lookup (buf : list Z) (i v : Z) :
  0 <= i → buf !! Z.to_nat i = Some v → rd buf i = v.
Proof.
  intros Hi E. unfold rd. destruct (Z.leb_spec 0 i); [|lia]. now rewrite E.
Qed.

(** The cells of a region. *)
Lemma elem_of_region_cells (w y0 y1 y x c : Z) :
  (y, x, c) ∈ region_cells w y0 y1 ↔ y0 <= y < y1 ∧ 1 <= x < w - 1 ∧ 0 <= c < 3.
Proof.
  unfold region_cells. rewrite list_elem_of_bind. split.
  - intros (y' & Hin & Hy). apply elem_of_seqZ in Hy.
    apply list_elem_of_bind in Hin as (x' & Hin & Hx). apply elem_of_seqZ in Hx.
    apply list_elem_of_bind in Hin as (c' & Hin & Hc). apply elem_of_seqZ in Hc.
    apply list_elem_of_singleton in Hin. injection Hin as -> -> ->. lia.
  - intros (Hy & Hx & Hc). exists y. split; [|apply elem_of_seqZ; lia].
    apply list_elem_of_bind. exists x. split; [|apply elem_of_seqZ; lia].
    apply list_elem_of_bind. exists c. split; [|apply elem_of_seqZ; lia].
    apply list_elem_of_singleton. reflexivity.
Qed.

Lemma cell_idx_inj (w : Z) (order : list cell) (cl cl' : cell) :
  cells_in w order → cl ∈ order → cl' ∈ order →
  cell_idx w cl = cell_idx w cl' → cl = cl'.
Proof.
  destruct cl as [[y x] c], cl' as [[y' x'] c']. intros Hin H1 H2 E.
  destruct (Hin _ _ _ H1), (Hin _ _ _ H2).
  destruct (idx_inj w y x c y' x' c') as (-> & -> & ->); auto.
Qed.

Lemma region_cells_in (w y0 y1 : Z) : cells_in w (region_cells w y0 y1).
Proof. intros y x c H. apply elem_of_region_cells in H. lia. Qed.

Lemma cells_in_perm (w : Z) (o o' : list cell) :
  o ≡ₚ o' → cells_in w o → cells_in w o'.
Proof. intros HP H y x c Hin. apply (H y x c). now rewrite HP. Qed.

Section PassFacts.

Variable expf : float32 → float32.
Variable alpha : float32.
Variable w : Z.

Lemma length_stencil_pass curr next order :
  length (stencil_pass expf alpha w curr next order) = length next.
Proof.
  unfold stencil_pass. revert next.
  induction order as [|cl order IH]; intros next; simpl; [reflexivity|].
  rewrite IH. apply length_wr.
Qed.

(** A byte no cell of the pass addresses keeps the value it had in
    [next]. *)
Lemma stencil_pass_miss curr next order (i : Z) :
  0 <= i → (∀ cl, cl ∈ order → cell_idx w cl ≠ i) →
  stencil_pass expf alpha w curr next order !! Z.to_nat i = next !! Z.to_nat i.
Proof.
  unfold stencil_pass. intros Hi. revert next.
  induction order as [|cl order IH]; intros next Hne; simpl; [reflexivity|].
  rewrite IH by (intros cl' Hcl'; apply Hne; now right).
  unfold update_cell. apply wr_lookup_ne; [assumption|].
  apply Hne. now left.
Qed.

(** The byte of a cell of the pass holds the value computed for that cell
    from [curr], whatever the order of the pass. *)
Lemma stencil_pass_hit curr next order (cl : cell) :
  cells_in w order → cl ∈ order →
  0 <= cell_idx w cl < Z.of_nat (length next) →
  stencil_pass expf alpha w curr next order !! Z.to_nat (cell_idx w cl)
  = Some (cell_value expf alpha w curr cl).
Proof.
  unfold stencil_pass. revert next.
  induction order as [|cl0 order IH]; intros next Hin Hcl Hidx; [inv Hcl|].
  simpl. destruct (decide (cl ∈ order)) as [Hmem|Hnot].
  - apply IH; [|assumption|].
    + intros y x c H. apply (Hin y x c). now right.
    + unfold update_cell. now rewrite length_wr.
  - assert (cl = cl0) as <- by (inv Hcl; [reflexivity|contradiction]).
    fold (stencil_pass expf alpha w curr (update_cell expf alpha w curr next cl) order).
    rewrite stencil_pass_miss; [apply wr_lookup_eq; assumption|lia|].
    intros cl' Hcl' E. apply Hnot.
    assert (cl' = cl) as <-; [|assumption].
    apply (cell_idx_inj w (cl :: order)); [assumption|now right|now left|assumption].
Qed.

(** Two orders over the same cells give the same scratch buffer. *)
Lemma stencil_pass_perm curr next (o o' : list cell) :
  o ≡ₚ o' → cells_in w o →
  stencil_pass expf alpha w curr next o = stencil_pass expf alpha w curr next o'.
Proof.
  intros HP Hin. apply list_eq. intros j.
  destruct (decide (j < length next)%nat) as [Hj|Hj].
  2:{ rewrite !(proj2 (lookup_ge_None _ _)); [reflexivity| |];
        rewrite length_stencil_pass; lia. }
  destruct (decide (Exists (λ cl, cell_idx w cl = Z.of_nat j) o)) as [Hex|Hno].
  - apply Exists_exists in Hex as (cl & Hcl & E).
    pose proof (stencil_pass_hit curr next o cl Hin Hcl ltac:(lia)) as H1.
    pose proof (stencil_pass_hit curr next o' cl (cells_in_perm _ _ _ HP Hin)
                  ltac:(now rewrite <- HP) ltac:(lia)) as H2.
    rewrite E, Nat2Z.id in H1, H2. now rewrite H1, H2.
  - rewrite <- (Nat2Z.id j).
    rewrite !stencil_pass_miss; try lia; try reflexivity.
    + intros cl Hcl E. apply Hno, Exists_exists. exists cl.
      split; [now rewrite HP|assumption].
    + intros cl Hcl E. apply Hno, Exists_exists. exists cl. now split.
Qed.

End PassFacts.

(** ** Rows and byte ranges *)

Lemma idx_decode (w h i : Z) :
  0 < w → 0 <= i < w * h * 3 →
  ∃ y x c, 0 <= y < h ∧ 0 <= x < w ∧ 0 <= c < 3 ∧ i = idx w y x c.
Proof.
  intros Hw Hi. exists (i / 3 / w), ((i / 3) mod w), (i mod 3).
  pose proof (Z.div_mod i 3 ltac:(lia)).
  pose proof (Z.mod_pos_bound i 3 ltac:(lia)).
  pose proof (Z.div_mod (i / 3) w ltac:(lia)).
  pose proof (Z.mod_pos_bound (i / 3) w ltac:(lia)).
  assert (0 <= i / 3) by (apply Z.div_pos; lia).
  assert (0 <= i / 3 / w) by (apply Z.div_pos; lia).
  assert (i / 3 / w < h).
  { apply Z.div_lt_upper_bound; [lia|]. apply Z.div_lt_upper_bound; lia. }
  unfold idx. repeat split; lia.
Qed.

Lemma idx_row_range (w a b y x c : Z) :
  0 <= x < w → 0 <= c < 3 →
  a * w * 3 <= idx w y x c < b * w * 3 ↔ a <= y < b.
Proof.
  unfold idx. intros Hx Hc. split; intros H.
  - split.
    + destruct (Z.le_gt_cases a y); [assumption|]. nia.
    + destruct (Z.lt_ge_cases y b); [assumption|]. nia.
  - nia.
Qed.

(** ** The effective regions tile the interior rows *)

Section EffectiveRegions.

Variables width height size : Z.
Hypothesis Hheight : 2 <= height.
Hypothesis Hsize : 1 <= size <= height.

Lemma eff_bounds i :
  0 <= i < size →
  1 <= eff_start height size i <= eff_end height size i
  ∧ eff_end height size i <= height - 1.
Proof.
  intros Hi.
  pose proof (local_start_nonneg height size ltac:(lia) ltac:(lia) i ltac:(lia)) as H0.
  pose proof (local_rows_pos height size ltac:(lia) ltac:(lia) i ltac:(lia)) as H1.
  pose proof (local_end_le_height height size ltac:(lia) ltac:(lia) i Hi) as H2.
  unfold local_end in H2.
  unfold eff_start, eff_end, proc_end, proc_start, proc_rows.
  unfold local_start, local_rows in *.
  destruct (Z.ltb_spec i (extra height size));
    repeat match goal with
           | |- context [?a <? ?b] => destruct (Z.ltb_spec a b)
           | |- context [?a >? ?b] => rewrite (Z.gtb_ltb a b); destruct (Z.ltb_spec b a)
           end; lia.
Qed.

Lemma eff_in_local i y :
  eff_start height size i <= y < eff_end height size i →
  (local_start height size i <= y < local_end height size i)
  ∧ 1 <= y < height - 1.
Proof.
  unfold eff_start, eff_end, proc_end, proc_start, proc_rows,
    local_end, local_start, local_rows.
  destruct (Z.ltb_spec i (extra height size));
    repeat match goal with
           | |- context [?a <? ?b] => destruct (Z.ltb_spec a b)
           | |- context [?a >? ?b] => rewrite (Z.gtb_ltb a b); destruct (Z.ltb_spec b a)
           end; lia.
Qed.

Lemma local_in_eff i y :
  local_start height size i <= y < local_end height size i →
  1 <= y < height - 1 →
  eff_start height size i <= y < eff_end height size i.
Proof.
  unfold eff_start, eff_end, proc_end, proc_start, proc_rows,
    local_end, local_start, local_rows.
  destruct (Z.ltb_spec i (extra height size));
    repeat match goal with
           | |- context [?a <? ?b] => destruct (Z.ltb_spec a b)
           | |- context [?a >? ?b] => rewrite (Z.gtb_ltb a b); destruct (Z.ltb_spec b a)
           end; lia.
Qed.

Lemma eff_covered y :
  1 <= y < height - 1 →
  ∃ i, 0 <= i < size ∧ eff_start height size i <= y < eff_end height size i.
Proof.
  intros Hy.
  destruct (covered height size ltac:(lia) ltac:(lia) y ltac:(lia)) as (i & Hi & Hin).
  exists i. split; [assumption|]. now apply local_in_eff.
Qed.

Lemma eff_disjoint i i' y :
  0 <= i → 0 <= i' →
  eff_start height size i <= y < eff_end height size i →
  eff_start height size i' <= y < eff_end height size i' →
  i = i'.
Proof.
  intros Hi Hi' H H'. apply eff_in_local in H as [H _].
  apply eff_in_local in H' as [H' _].
  apply (ranges_disjoint height size ltac:(lia) ltac:(lia) i i' y); assumption.
Qed.

Lemma recvcounts_nonneg i :
  0 < width → 0 <= i < size → 0 <= recvcounts width height size i.
Proof.
  intros Hw Hi. pose proof (eff_bounds i Hi). unfold recvcounts. nia.
Qed.

End EffectiveRegions.

(** The count a rank sends is the count every rank expects from it. *)
Lemma local_count_recvcounts (width height size rank : Z) :
  local_count width height size rank = recvcounts width height size rank
  ∧ local_eff_start height size rank * width * 3 = displs width height size rank.
Proof. split; reflexivity. Qed.

(** ** The all-gather, pointwise *)

Section GatherFacts.

Variables width height size : Z.
Hypothesis Hwidth : 0 < width.

Local Abbreviation gather := (gather width height size).
Local Abbreviation covers := (covers width height size).

Lemma displs_nonneg i : 0 <= displs width height size i.
Proof.
  unfold displs, eff_start.
  destruct (Z.ltb_spec (proc_start height size i) 1); nia.
Qed.

Lemma length_gather block_of ranks buf :
  length (gather block_of ranks buf) = length buf.
Proof.
  unfold gather. revert buf.
  induction ranks as [|i ranks IH]; intros buf; simpl; [reflexivity|].
  now rewrite IH, length_inserts.
Qed.

Lemma gather_miss block_of ranks buf (j : nat) :
  (∀ i, i ∈ ranks → ¬ covers i (Z.of_nat j)) →
  gather block_of ranks buf !! j = buf !! j.
Proof.
  unfold gather. revert buf.
  induction ranks as [|i ranks IH]; intros buf Hno; simpl; [reflexivity|].
  rewrite IH by (intros i' Hi'; apply Hno; now right).
  pose proof (Hno i ltac:(now left)) as Hi. unfold covers in Hi.
  pose proof (displs_nonneg i).
  destruct (decide (j < Z.to_nat (displs width height size i))%nat).
  - now apply list_lookup_inserts_lt.
  - apply list_lookup_inserts_ge. rewrite length_take. lia.
Qed.

Lemma gather_hit block_of ranks buf (i : Z) (j : nat) :
  NoDup ranks → i ∈ ranks → covers i (Z.of_nat j) →
  (∀ i', i' ∈ ranks → covers i' (Z.of_nat j) → i' = i) →
  (j < length buf)%nat →
  (Z.to_nat (recvcounts width height size i) <= length (block_of i))%nat →
  gather block_of ranks buf !! j
  = block_of i !! (j - Z.to_nat (displs width height size i))%nat.
Proof.
  unfold gather. revert buf.
  induction ranks as [|i0 ranks IH]; intros buf Hnd Hin Hcov Huniq Hj Hlen;
    [inv Hin|].
  simpl. apply NoDup_cons in Hnd as [Hnotin Hnd].
  destruct (decide (i0 = i)) as [->|Hne].
  - fold (gather block_of ranks
            (list_inserts (Z.to_nat (displs width height size i))
               (take (Z.to_nat (recvcounts width height size i)) (block_of i)) buf)).
    rewrite gather_miss.
    + pose proof (displs_nonneg i). unfold covers in Hcov.
      rewrite list_lookup_inserts by (rewrite ?length_take; lia).
      apply lookup_take_lt. lia.
    + intros i' Hi' Hc. apply Hnotin. rewrite <- (Huniq i'); auto. now right.
  - apply IH; auto.
    + apply elem_of_cons in Hin as [->|Hin]; [congruence|assumption].
    + intros i' Hi'. apply Huniq. now right.
    + now rewrite length_inserts.
Qed.

End GatherFacts.

(** ** A round of the engine is a round of the reference *)

Lemma mapM_replicate {A B} (f : A → option B) (n : nat) (x : A) (y : B) :
  f x = Some y → mapM f (replicate n x) = Some (replicate n y).
Proof.
  intros E. apply mapM_Some. induction n as [|n IH]; simpl; constructor; auto.
Qed.

Lemma fold_left_zip_fmap {A} (F : Z → list Z → A → A) (B_of : Z → list Z)
    (l : list Z) (a : A) :
  fold_left (λ buf '(i, blk), F i blk buf) (zip l (B_of <$> l)) a
  = fold_left (λ buf i, F i (B_of i) buf) l a.
Proof.
  revert a. induction l as [|i l IH]; intros a; simpl; [reflexivity|]. apply IH.
Qed.

Lemma imap_replicate_seqZ {A B} (f : Z → A → B) (n : Z) (x : A) :
  imap (λ r, f (Z.of_nat r)) (replicate (Z.to_nat n) x)
  = (λ i, f i x) <$> seqZ 0 n.
Proof.
  apply list_eq. intros k.
  rewrite list_lookup_imap, list_lookup_fmap.
  destruct (decide (k < Z.to_nat n)%nat) as [Hk|Hk].
  - rewrite lookup_replicate_2, lookup_seqZ_lt by lia. simpl. do 2 f_equal.
  - rewrite (proj1 (lookup_replicate_None _ _ _)), lookup_seqZ_ge by lia.
    reflexivity.
Qed.

Section RoundFacts.

Variable expf : float32 → float32.
Variable alpha : float32.
Variables width height : Z.
Hypothesis Hwidth : 0 < width.

Local Abbreviation pass := (stencil_pass expf alpha width).
Local Abbreviation reference := (reference_round expf alpha width height).

Lemma length_reference_round curr : length (reference curr) = length curr.
Proof. apply length_stencil_pass. Qed.

Lemma reference_round_ok curr :
  buffer_ok width height curr → buffer_ok width height (reference curr).
Proof. unfold buffer_ok. now rewrite length_reference_round. Qed.

(** An interior cell receives the value computed from the snapshot. *)
Lemma reference_round_interior curr y x c :
  buffer_ok width height curr →
  1 <= y < height - 1 → 1 <= x < width - 1 → 0 <= c < 3 →
  reference curr !! Z.to_nat (idx width y x c)
  = Some (cell_value expf alpha width curr (y, x, c)).
Proof.
  intros Hbuf Hy Hx Hc.
  apply (stencil_pass_hit expf alpha width curr curr _ (y, x, c)).
  - apply region_cells_in.
  - apply elem_of_region_cells. lia.
  - simpl. rewrite Hbuf. apply idx_bounds; lia.
Qed.

(** A byte of a border row or a border column keeps its value. *)
Lemma reference_round_border curr y x c :
  0 <= y → 0 <= x < width → 0 <= c < 3 →
  y <= 0 ∨ height - 1 <= y ∨ x = 0 ∨ x = width - 1 →
  reference curr !! Z.to_nat (idx width y x c)
  = curr !! Z.to_nat (idx width y x c).
Proof.
  intros Hy Hx Hc Hb. apply stencil_pass_miss.
  - unfold idx. nia.
  - intros [[y' x'] c'] Hin E. apply elem_of_region_cells in Hin.
    simpl in E. apply idx_inj in E; lia.
Qed.

(** Restricted to rows [[y0,y1)] of the interior, the pass of a rank and
    the full pass store the same bytes in those rows. *)
Lemma pass_region_agree curr y0 y1 y x c :
  buffer_ok width height curr →
  1 <= y0 → y1 <= height - 1 → y0 <= y < y1 → 0 <= x < width → 0 <= c < 3 →
  pass curr curr (region_cells width y0 y1) !! Z.to_nat (idx width y x c)
  = reference curr !! Z.to_nat (idx width y x c).
Proof.
  intros Hbuf H0 H1 Hy Hx Hc.
  destruct (decide (1 <= x < width - 1)) as [Hin|Hout].
  - rewrite reference_round_interior by (auto; lia).
    apply (stencil_pass_hit expf alpha width curr curr _ (y, x, c)).
    + apply region_cells_in.
    + apply elem_of_region_cells. lia.
    + simpl. rewrite Hbuf. apply idx_bounds; lia.
  - rewrite reference_round_border by (auto; lia).
    apply stencil_pass_miss.
    + unfold idx. nia.
    + intros [[y' x'] c'] Hin E. apply elem_of_region_cells in Hin.
      simpl in E. apply idx_inj in E; lia.
Qed.

Variable size : Z.
Hypothesis Hheight : 2 <= height.
Hypothesis Hsize : 1 <= size <= height.

Variable sch : schedule.
Hypothesis Hsch : schedule_ok width height size sch.

Local Abbreviation block_of := (block_of expf alpha width height size sch).

Lemma local_next_sequential iter i curr :
  local_next expf alpha width (sch iter i) curr
  = pass curr curr (region_cells width (eff_start height size i)
                                       (eff_end height size i)).
Proof.
  unfold local_next. apply stencil_pass_perm; [apply Hsch|].
  apply (cells_in_perm width (sequential width height size iter i)).
  - symmetry. apply Hsch.
  - apply region_cells_in.
Qed.

Lemma gather_reference iter curr :
  buffer_ok width height curr →
  gather width height size (block_of iter curr) (seqZ 0 size) curr
  = reference curr.
Proof.
  intros Hbuf. apply list_eq. intros j.
  destruct (decide (j < length curr)%nat) as [Hj|Hj].
  2:{ rewrite !(proj2 (lookup_ge_None _ _)); [reflexivity| |].
      - rewrite length_reference_round. lia.
      - rewrite length_gather. lia. }
  destruct (idx_decode width height (Z.of_nat j) Hwidth ltac:(unfold buffer_ok in Hbuf; lia))
    as (y & x & c & Hy & Hx & Hc & Ej).
  assert (∀ i, covers width height size i (Z.of_nat j)
               ↔ eff_start height size i <= y < eff_end height size i) as Hcov.
  { intros i. unfold covers, displs, recvcounts. rewrite Ej.
    rewrite <- (idx_row_range width _ _ y x c Hx Hc). lia. }
  destruct (decide (1 <= y < height - 1)) as [Hin|Hout].
  - destruct (eff_covered height size Hheight Hsize y Hin) as (i & Hi & Hyi).
    pose proof (eff_bounds height size Hheight Hsize i Hi) as Hb.
    assert (length (local_next expf alpha width (sch iter i) curr) = length curr)
      as Hlen by apply length_stencil_pass.
    assert (0 <= displs width height size i
            ∧ displs width height size i + recvcounts width height size i
              <= Z.of_nat (length curr)) as [Hd0 Hd1].
    { unfold displs, recvcounts. rewrite Hbuf. nia. }
    pose proof (proj2 (Hcov i) Hyi) as Hc'. unfold covers in Hc'.
    rewrite (gather_hit width height size Hwidth _ _ _ i j).
    + unfold block_of, send_block.
      change (local_count width height size i) with (recvcounts width height size i).
      change (local_eff_start height size i * width * 3)
        with (displs width height size i).
      rewrite lookup_take_lt, lookup_drop by lia.
      replace (Z.to_nat (displs width height size i)
               + (j - Z.to_nat (displs width height size i)))%nat with j by lia.
      rewrite local_next_sequential.
      rewrite <- (Nat2Z.id j), Ej.
      apply pass_region_agree; auto; lia.
    + apply NoDup_seqZ.
    + apply elem_of_seqZ. lia.
    + now apply Hcov.
    + intros i' Hi' Hc''. apply elem_of_seqZ in Hi'. apply Hcov in Hc''.
      apply (eff_disjoint height size ltac:(lia) ltac:(lia) i' i y); auto; lia.
    + assumption.
    + unfold block_of, send_block.
      change (local_count width height size i) with (recvcounts width height size i).
      change (local_eff_start height size i * width * 3)
        with (displs width height size i).
      rewrite length_take, length_drop, Hlen. lia.
  - rewrite gather_miss by
      (try assumption; intros i Hi Hc'; apply Hcov in Hc';
       apply (eff_in_local height size) in Hc'; lia).
    rewrite <- (Nat2Z.id j), Ej. symmetry.
    apply reference_round_border; lia.
Qed.

Lemma counts_ok :
  forallb (λ i, 0 <=? recvcounts width height size i) (seqZ 0 size) = true.
Proof.
  apply forallb_forall. intros i Hi. apply list_elem_of_In, elem_of_seqZ in Hi.
  apply Z.leb_le. apply recvcounts_nonneg; auto; lia.
Qed.

(** Ranks that hold the same snapshot hold the reference round of it
    after the exchange. *)
Lemma round_replicate iter curr :
  buffer_ok width height curr →
  round expf alpha width height size sch iter (replicate (Z.to_nat size) curr)
  = Some (replicate (Z.to_nat size) (reference curr)).
Proof.
  intros Hbuf. unfold round. apply mapM_replicate.
  unfold MPI_Allgatherv. rewrite counts_ok. f_equal.
  rewrite (imap_replicate_seqZ
             (λ r curr, send_block width height size r
                          (local_next expf alpha width (sch iter r) curr))).
  rewrite (fold_left_zip_fmap
             (λ i blk buf,
                list_inserts (Z.to_nat (displs width height size i))
                  (take (Z.to_nat (recvcounts width height size i)) blk) buf)).
  apply (gather_reference iter curr Hbuf).
Qed.

Lemma iter_reference_ok n curr :
  buffer_ok width height curr →
  buffer_ok width height (Nat.iter n reference curr).
Proof.
  intros H. induction n as [|n IH]; simpl; [assumption|].
  now apply reference_round_ok.
Qed.

Lemma rounds_replicate n iter curr :
  buffer_ok width height curr →
  rounds expf alpha width height size sch n iter (replicate (Z.to_nat size) curr)
  = Some (replicate (Z.to_nat size) (Nat.iter n reference curr)).
Proof.
  revert iter curr. induction n as [|n IH]; intros iter curr Hbuf;
    [reflexivity|].
  cbn [rounds]. rewrite round_replicate by assumption.
  rewrite IH by now apply reference_round_ok.
  now rewrite Nat.iter_succ_r.
Qed.

End RoundFacts.

(** On a communicator of [1 <= size <= height] ranks, an image of at least
    two rows and any schedule of the cells, every rank returns the input
    after [iterations] reference rounds. *)
Lemma parallel_is_reference (expf : float32 → float32) (sch : schedule)
    (input : PPMImage) (alpha : float32) (iterations rank size : Z) :
  image_ok input → 2 <= height input → 1 <= size <= height input →
  0 <= rank < size → schedule_ok (width input) (height input) size sch →
  graph_diffusion_rgb_parallel_sched expf sch input alpha iterations rank size
  = Some (Nat.iter (Z.to_nat iterations)
            (reference_round expf alpha (width input) (height input))
            (data input)).
Proof.
  intros (Hw & Hh & Hbuf) Hh2 Hs Hr Hsch.
  unfold graph_diffusion_rgb_parallel_sched.
  rewrite (rounds_replicate expf alpha (width input) (height input) Hw size Hh2 Hs sch Hsch)
    by assumption.
  apply lookup_replicate_2. lia.
Qed.

Lemma sequential_ok (width height size : Z) :
  schedule_ok width height size (sequential width height size).
Proof. intros iter rank. reflexivity. Qed.

(** ** Facts on binary32 values of bytes *)

Lemma bytes_forall (P : Z → bool) :
  forallb P (seqZ 0 256) = true → ∀ v, 0 <= v < 256 → P v = true.
Proof.
  intros H v Hv. rewrite forallb_forall in H.
  apply H, list_elem_of_In, elem_of_seqZ. lia.
Qed.

Lemma mean_check_all : forallb mean_check (seqZ 0 256) = true.
Proof. vm_compute. reflexivity. Qed.

Lemma sub_check_all : forallb sub_check (seqZ 0 256) = true.
Proof. vm_compute. reflexivity. Qed.

Lemma keep_check_all : forallb keep_check (seqZ 0 256) = true.
Proof. vm_compute. reflexivity. Qed.

Lemma blend_zero_keeps (v : Z) (s : bool) :
  0 <= v < 256 → to_uchar (clamp (add (of_int v) (S754_zero s))) = v.
Proof.
  intros Hv. pose proof (bytes_forall _ keep_check_all v Hv) as H.
  unfold keep_check in H. apply andb_prop in H as [H1 H2].
  destruct s; now apply Z.eqb_eq.
Qed.

Lemma sub_self (v : Z) : 0 <= v < 256 → sub (of_int v) (of_int v) = zero.
Proof.
  intros Hv. pose proof (bytes_forall _ sub_check_all v Hv) as H.
  now apply bool_decide_eq_true in H.
Qed.

Lemma mean_unit (v : Z) :
  0 <= v < 256 → smooth_value expf_unit v [v; v; v; v] = of_int v.
Proof.
  intros Hv. pose proof (bytes_forall _ mean_check_all v Hv) as H.
  now apply bool_decide_eq_true in H.
Qed.

Lemma mul_zero_finite (a d : float32) :
  is_zero a = true → is_finite d = true → is_zero (mul a d) = true.
Proof.
  intros Ha Hd. destruct a; try discriminate Ha.
  destruct d; try discriminate Hd; reflexivity.
Qed.

Lemma mul_finite_zero (a : float32) (s : bool) :
  is_finite a = true → is_zero (mul a (S754_zero s)) = true.
Proof. intros Ha. destruct a; try discriminate Ha; reflexivity. Qed.

Lemma is_zero_inv (f : float32) : is_zero f = true → ∃ s, f = S754_zero s.
Proof. destruct f; simpl; intros; try discriminate. eauto. Qed.

(** [x <= t] excludes [x > t]; and [|d| <= t] for a finite [t] makes [d]
    finite. *)
Lemma le_not_gt (x t : float32) : le x t = true → gt x t = false.
Proof.
  unfold le, gt, SFleb, SFltb, SFcompare.
  destruct x as [s|s| |s m e], t as [s'|s'| |s' m' e'];
    try (destruct s; congruence); try (destruct s'; congruence);
    try (destruct s, s'; congruence); try congruence.
  pose proof (Z.compare_antisym e e') as HZ.
  pose proof (Pos.compare_antisym m m') as HP. unfold Pos.compare in HP.
  rewrite HZ, HP.
  destruct s, s'; try congruence;
    destruct (e ?= e')%Z; cbn [CompOpp]; try congruence;
    destruct (Pos.compare_cont Eq m m'); cbn [CompOpp]; congruence.
Qed.

Lemma le_abs_finite (d t : float32) :
  is_finite t = true → le (fabsf d) t = true → is_finite d = true.
Proof.
  unfold le, SFleb, fabsf, SFabs, SFcompare, is_finite.
  destruct d as [s|s| |s m e], t as [s'|s'| |s' m' e']; congruence.
Qed.

Lemma le_threshold_not_gt (x : float32) :
  le x threshold = true → gt x threshold = false.
Proof. apply le_not_gt. Qed.

Lemma le_threshold_finite (d : float32) :
  le (fabsf d) threshold = true → is_finite d = true.
Proof. apply le_abs_finite. reflexivity. Qed.

(** ** The per-pixel rule at [alpha = 0] and on uniform neighbourhoods *)

Section RuleFacts.

Variable expf : float32 → float32.

Lemma pixel_update_edge alpha center nb :
  gt (edge_strength expf center nb) threshold = true →
  pixel_update expf alpha center nb
  = to_uchar (clamp (smooth_value expf center nb)).
Proof. unfold pixel_update, edge_strength. now intros ->. Qed.

Lemma pixel_update_alpha_zero alpha center nb :
  is_zero alpha = true → 0 <= center < 256 →
  le (edge_strength expf center nb) threshold = true →
  pixel_update expf alpha center nb = center.
Proof.
  unfold pixel_update, edge_strength. intros Ha Hc Hle.
  rewrite (le_threshold_not_gt _ Hle).
  apply le_threshold_finite in Hle.
  destruct (is_zero_inv _ (mul_zero_finite alpha _ Ha Hle)) as [s ->].
  now apply blend_zero_keeps.
Qed.

(** Annex F: [expf(+-0)] returns [1]. *)
Hypothesis expf_at_zero : ∀ s, expf (S754_zero s) = one.

Lemma weight_same v : weight expf v v = one.
Proof.
  unfold weight. rewrite Z.sub_diag.
  change (div (neg (mul (of_int 0) (of_int 0))) (mul (mul (of_int 2) sigma) sigma))
    with (S754_zero true).
  apply expf_at_zero.
Qed.

Lemma smooth_value_uniform v :
  0 <= v < 256 → smooth_value expf v [v; v; v; v] = of_int v.
Proof.
  intros Hv. rewrite <- (mean_unit v Hv).
  unfold smooth_value, accumulate. rewrite !accumulate_fold.
  cbn [map fold_left]. rewrite !weight_same.
  change (weight expf_unit v v) with one. reflexivity.
Qed.

(** A cell whose four neighbours hold the value of the cell keeps it. *)
Lemma pixel_update_uniform alpha v :
  is_finite alpha = true → 0 <= v < 256 →
  pixel_update expf alpha v [v; v; v; v] = v.
Proof.
  intros Ha Hv. unfold pixel_update.
  rewrite smooth_value_uniform, sub_self by assumption.
  change (gt (fabsf zero) threshold) with false. cbv iota.
  change zero with (S754_zero false).
  destruct (is_zero_inv _ (mul_finite_zero alpha false Ha)) as [s ->].
  now apply blend_zero_keeps.
Qed.

End RuleFacts.

(** ** Rounds of the reference: borders, byte range, uniform images *)

Lemma to_uchar_range (f : float32) : 0 <= to_uchar f < 256.
Proof.
  unfold to_uchar. destruct (trunc f); [apply Z.mod_pos_bound|]; lia.
Qed.

Lemma rd_replicate (n : nat) (v i : Z) :
  0 <= i < Z.of_nat n → rd (replicate n v) i = v.
Proof.
  intros Hi. apply rd_lookup; [lia|]. apply lookup_replicate_2. lia.
Qed.

Section ReferenceFacts.

Variable expf : float32 → float32.
Variable alpha : float32.
Variables width height : Z.
Hypothesis Hwidth : 0 < width.

Local Abbreviation reference := (reference_round expf alpha width height).

Lemma reference_round_bytes curr :
  buffer_ok width height curr → bytes_ok curr → bytes_ok (reference curr).
Proof.
  intros Hbuf Hb j b Hj.
  assert (j < length curr)%nat as Hlt.
  { apply lookup_lt_Some in Hj. now rewrite length_reference_round in Hj. }
  destruct (idx_decode width height (Z.of_nat j) Hwidth
              ltac:(unfold buffer_ok in Hbuf; lia))
    as (y & x & c & Hy & Hx & Hc & Ej).
  rewrite <- (Nat2Z.id j), Ej in Hj.
  destruct (decide (1 <= y < height - 1 ∧ 1 <= x < width - 1)) as [[H1 H2]|Hout].
  - rewrite reference_round_interior in Hj by assumption.
    assert (b = cell_value expf alpha width curr (y, x, c)) as -> by congruence.
    unfold cell_value, pixel_update. apply to_uchar_range.
  - rewrite reference_round_border in Hj by lia. eapply Hb, Hj.
Qed.

Lemma iter_reference_bytes n curr :
  buffer_ok width height curr → bytes_ok curr →
  bytes_ok (Nat.iter n reference curr).
Proof.
  intros Hbuf Hb. induction n as [|n IH]; simpl; [assumption|].
  apply reference_round_bytes; [|assumption].
  now apply iter_reference_ok.
Qed.

(** No number of rounds changes a byte of a border row or column. *)
Lemma iter_reference_border n curr y x c :
  0 <= y → 0 <= x < width → 0 <= c < 3 →
  y <= 0 ∨ height - 1 <= y ∨ x = 0 ∨ x = width - 1 →
  Nat.iter n reference curr !! Z.to_nat (idx width y x c)
  = curr !! Z.to_nat (idx width y x c).
Proof.
  intros Hy Hx Hc Hb. induction n as [|n IH]; simpl; [reflexivity|].
  now rewrite reference_round_border.
Qed.

(** A uniform image is a fixed point of the round when [expf(+-0) = 1]
    and [alpha] is finite. *)
Lemma reference_round_flat (v : Z) :
  (∀ s, expf (S754_zero s) = one) → is_finite alpha = true →
  0 < height → 0 <= v < 256 →
  reference (replicate (Z.to_nat (width * height * 3)) v)
  = replicate (Z.to_nat (width * height * 3)) v.
Proof.
  intros Hexp Ha Hh Hv. set (n := Z.to_nat (width * height * 3)).
  assert (buffer_ok width height (replicate n v)) as Hbuf.
  { unfold buffer_ok. rewrite length_replicate. subst n. nia. }
  apply list_eq. intros j.
  destruct (decide (j < n)%nat) as [Hj|Hj].
  2:{ rewrite !(proj2 (lookup_ge_None _ _)); [reflexivity| |];
        rewrite ?length_reference_round, length_replicate; lia. }
  destruct (idx_decode width height (Z.of_nat j) Hwidth ltac:(subst n; lia))
    as (y & x & c & Hy & Hx & Hc & Ej).
  rewrite <- (Nat2Z.id j), Ej.
  destruct (decide (1 <= y < height - 1 ∧ 1 <= x < width - 1)) as [[H1 H2]|Hout].
  - rewrite reference_round_interior by assumption.
    rewrite lookup_replicate_2 by lia. f_equal.
    unfold cell_value, neighbors.
    assert (∀ y' x', 0 <= y' < height → 0 <= x' < width →
              rd (replicate n v) (idx width y' x' c) = v) as Hrd.
    { intros y' x' Hy' Hx'. apply rd_replicate.
      pose proof (idx_bounds width height y' x' c Hy' Hx' Hc). subst n. lia. }
    rewrite !Hrd by lia. now apply pixel_update_uniform.
  - apply reference_round_border; lia.
Qed.

Lemma iter_reference_flat (n : nat) (v : Z) :
  (∀ s, expf (S754_zero s) = one) → is_finite alpha = true →
  0 < height → 0 <= v < 256 →
  Nat.iter n reference (replicate (Z.to_nat (width * height * 3)) v)
  = replicate (Z.to_nat (width * height * 3)) v.
Proof.
  intros Hexp Ha Hh Hv. induction n as [|n IH]; simpl; [reflexivity|].
  rewrite IH. now apply reference_round_flat.
Qed.

End ReferenceFacts.

(** ** The engine: borders and worker counts it cannot run *)

(** The hybrid engine never changes a border byte. *)
Lemma parallel_border_preserved (expf : float32 → float32) (input : PPMImage)
    (alpha : float32) (iterations rank size : Z) (out : list Z) (y x c : Z) :
  image_ok input → 2 <= height input → 1 <= size <= height input →
  0 <= rank < size →
  graph_diffusion_rgb_parallel expf input alpha iterations rank size = Some out →
  0 <= y < height input → 0 <= x < width input → 0 <= c < 3 →
  y = 0 ∨ y = height input - 1 ∨ x = 0 ∨ x = width input - 1 →
  out !! Z.to_nat (idx (width input) y x c)
  = data input !! Z.to_nat (idx (width input) y x c).
Proof.
  intros Himg Hh Hs Hr Hrun Hy Hx Hc Hb.
  unfold graph_diffusion_rgb_parallel in Hrun.
  rewrite parallel_is_reference in Hrun
    by (auto; apply sequential_ok).
  injection Hrun as <-. apply iter_reference_border; lia.
Qed.

Section BadWorkerCount.

Variables width height size : Z.
Hypothesis Hwidth : 0 < width.
Hypothesis Hheight : 1 <= height.
Hypothesis Hsize : 1 <= size.

Lemma eff_end_le i : eff_end height size i <= height - 1.
Proof.
  unfold eff_end. rewrite Z.gtb_ltb.
  destruct (Z.ltb_spec (height - 1) (proc_end height size i)); lia.
Qed.

Lemma eff_start_ge i : 1 <= eff_start height size i.
Proof.
  unfold eff_start. destruct (Z.ltb_spec (proc_start height size i) 1); lia.
Qed.

(** Every rank from [height] on is given zero rows starting at row
    [height], hence a negative byte count. *)
Lemma recvcounts_beyond_height i :
  height < size → height <= i →
  local_rows height size i = 0
  ∧ local_start height size i = height
  ∧ recvcounts width height size i = - (3 * width).
Proof.
  intros Hlt Hi.
  assert (rows_per_proc height size = 0) as Hq
    by (apply Z.quot_small; lia).
  assert (extra height size = height) as He
    by (apply Z.rem_small; lia).
  unfold recvcounts, eff_start, eff_end, proc_end, proc_start, proc_rows,
    local_rows, local_start.
  rewrite Hq, He. rewrite Z.gtb_ltb.
  destruct (Z.ltb_spec i height); [lia|].
  replace (i * 0 + height) with height by lia.
  destruct (Z.ltb_spec height 1); [lia|].
  destruct (Z.ltb_spec (height - 1) (height + 0)); lia.
Qed.

Lemma some_count_negative :
  height < 2 ∨ height < size →
  ∃ i, 0 <= i < size ∧ recvcounts width height size i < 0.
Proof.
  intros [H1|Hlt].
  - exists 0. split; [lia|].
    pose proof (eff_end_le 0). pose proof (eff_start_ge 0).
    unfold recvcounts. nia.
  - exists (size - 1). split; [lia|].
    destruct (recvcounts_beyond_height (size - 1) Hlt ltac:(lia)) as (_ & _ & ->).
    lia.
Qed.

Lemma allgatherv_fails blocks recvbuf :
  height < 2 ∨ height < size →
  MPI_Allgatherv width height size blocks recvbuf = None.
Proof.
  intros Hbad. destruct (some_count_negative Hbad) as (i & Hi & Hneg).
  unfold MPI_Allgatherv.
  destruct (forallb _ (seqZ 0 size)) eqn:E; [|reflexivity].
  rewrite forallb_forall in E.
  specialize (E i ltac:(apply list_elem_of_In, elem_of_seqZ; lia)).
  apply Z.leb_le in E. lia.
Qed.

End BadWorkerCount.

(** An image of one row, or more ranks than rows: the first exchange fails
    and no rank returns. *)
Lemma parallel_fails (expf : float32 → float32) (sch : schedule)
    (input : PPMImage) (alpha : float32) (iterations rank size : Z) :
  0 < width input → 1 <= height input → 1 <= size → 0 < iterations →
  height input < 2 ∨ height input < size →
  graph_diffusion_rgb_parallel_sched expf sch input alpha iterations rank size
  = None.
Proof.
  intros Hw Hh Hs Hit Hbad. unfold graph_diffusion_rgb_parallel_sched.
  destruct (Z.to_nat iterations) as [|n] eqn:En; [lia|].
  destruct (Z.to_nat size) as [|k] eqn:Ek; [lia|].
  cbn [rounds]. unfold round at 1.
  rewrite (mapM_None_2 _ (replicate (S k) (data input))); [reflexivity|].
  apply Exists_cons_hd. now apply allgatherv_fails.
Qed.

(** ** Determinism of the engine *)

Section Determinism.

Variable expf : float32 → float32.
Variable alpha : float32.
Variables width height size : Z.

Lemma local_next_program_order (sch : schedule) iter rank curr :
  schedule_ok width height size sch →
  local_next expf alpha width (sch iter rank) curr
  = local_next expf alpha width
      (region_cells width (local_eff_start height size rank)
                          (local_eff_end height size rank)) curr.
Proof.
  intros H. unfold local_next. apply stencil_pass_perm; [exact (H iter rank)|].
  apply (cells_in_perm width (sequential width height size iter rank));
    [symmetry; exact (H iter rank) | apply region_cells_in].
Qed.

Lemma round_schedule_independent (sch1 sch2 : schedule) iter1 iter2 world :
  schedule_ok width height size sch1 → schedule_ok width height size sch2 →
  round expf alpha width height size sch1 iter1 world
  = round expf alpha width height size sch2 iter2 world.
Proof.
  intros H1 H2. unfold round. f_equal. f_equal.
  apply imap_ext. intros r curr _. cbn beta. f_equal.
  now rewrite (local_next_program_order sch1), (local_next_program_order sch2).
Qed.

Lemma rounds_schedule_independent (sch1 sch2 : schedule) n iter1 iter2 world :
  schedule_ok width height size sch1 → schedule_ok width height size sch2 →
  rounds expf alpha width height size sch1 n iter1 world
  = rounds expf alpha width height size sch2 n iter2 world.
Proof.
  intros H1 H2. revert iter1 iter2 world.
  induction n as [|n IH]; intros iter1 iter2 world; [reflexivity|].
  cbn [rounds].
  rewrite (round_schedule_independent sch1 sch2 iter1 iter2 world H1 H2).
  destruct (round _ _ _ _ _ sch2 iter2 world); [apply IH | reflexivity].
Qed.

End Determinism.

(** C5.  The engine is a function of its inputs, and the order in which the
    cells of a round are updated does not matter: (1) run over any
    permutation of the cells of a rank's effective region, the loop nest
    leaves the same scratch buffer as in program order; (2) two runs on the
    same image with the same [alpha], [iterations] and communicator size
    return the same bytes on every rank, whatever order each round of each
    rank takes. *)
Theorem engine_deterministic (expf : float32 → float32) (input : PPMImage)
    (alpha : float32) (iterations size : Z) (sch1 sch2 : schedule) :
  schedule_ok (width input) (height input) size sch1 →
  schedule_ok (width input) (height input) size sch2 →
  (∀ iter rank curr next,
     stencil_pass expf alpha (width input) curr next (sch1 iter rank)
     = stencil_pass expf alpha (width input) curr next
         (region_cells (width input)
            (local_eff_start (height input) size rank)
            (local_eff_end (height input) size rank)))
  ∧ (∀ rank,
       graph_diffusion_rgb_parallel_sched expf sch1 input alpha iterations rank size
       = graph_diffusion_rgb_parallel_sched expf sch2 input alpha iterations rank size).
Proof.
  intros H1 H2. split.
  - intros iter rank curr next. apply stencil_pass_perm; [apply H1|].
    apply (cells_in_perm (width input)
             (sequential (width input) (height input) size iter rank));
      [symmetry; apply H1 | apply region_cells_in].
  - intros rank. unfold graph_diffusion_rgb_parallel_sched.
    now rewrite (rounds_schedule_independent expf alpha (width input)
                   (height input) size sch1 sch2 _ 0%nat 0%nat _ H1 H2).
Qed.

(** ** Uniform images *)

(** C7.  The 4x4 image with every pixel (128,128,128), [alpha = 0.5], three
    iterations, on 1, 2 or 4 ranks: every rank returns the input, provided
    [expf(+-0)] is [1] as Annex F of the C standard requires. *)
Theorem flat_gray_fixed_point (expf : float32 → float32) (rank size : Z) :
  (∀ s, expf (S754_zero s) = one) →
  size = 1 ∨ size = 2 ∨ size = 4 → 0 <= rank < size →
  graph_diffusion_rgb_parallel expf (flat_image 4 4 128) half 3 rank size
  = Some (data (flat_image 4 4 128)).
Proof.
  intros Hexp Hs Hr. unfold graph_diffusion_rgb_parallel.
  rewrite parallel_is_reference.
  - f_equal.
    exact (iter_reference_flat expf half 4 4 ltac:(lia) 3 128 Hexp eq_refl
             ltac:(lia) ltac:(lia)).
  - repeat split; simpl; lia.
  - simpl; lia.
  - simpl; lia.
  - assumption.
  - apply sequential_ok.
Qed.

(** ** [alpha = 0] *)

(** C6 as the code has it, round by round.  With [alpha] a zero, on a valid
    configuration, let [prev] be what the engine returns after [k] rounds and
    [next] after [k + 1] rounds.  For every interior cell, with [center],
    the neighbours and the edge strength taken in [prev]: if the edge
    strength is [<= 20.0] the cell holds in [next] the value it holds in
    [prev]; if it is [> 20.0] the cell holds the smooth value, clamped and
    truncated. *)
Theorem alpha_zero_round (expf : float32 → float32) (input : PPMImage)
    (alpha : float32) (k rank size : Z) :
  is_zero alpha = true →
  image_ok input → bytes_ok (data input) →
  2 <= height input → 1 <= size <= height input → 0 <= rank < size → 0 <= k →
  ∃ prev next,
    graph_diffusion_rgb_parallel expf input alpha k rank size = Some prev
    ∧ graph_diffusion_rgb_parallel expf input alpha (k + 1) rank size = Some next
    ∧ ∀ y x c,
        1 <= y <= height input - 2 → 1 <= x <= width input - 2 → 0 <= c <= 2 →
        let center := rd prev (idx (width input) y x c) in
        let nb := neighbors (width input) prev y x c in
        (le (edge_strength expf center nb) threshold = true →
           rd next (idx (width input) y x c) = center)
        ∧ (gt (edge_strength expf center nb) threshold = true →
             rd next (idx (width input) y x c)
             = to_uchar (clamp (smooth_value expf center nb))).
Proof.
  intros Ha Himg Hbytes Hh Hs Hr Hk.
  pose proof Himg as (Hw & Hh0 & Hbuf).
  set (ref := reference_round expf alpha (width input) (height input)).
  exists (Nat.iter (Z.to_nat k) ref (data input)),
         (ref (Nat.iter (Z.to_nat k) ref (data input))).
  unfold graph_diffusion_rgb_parallel.
  rewrite !parallel_is_reference by (auto; apply sequential_ok).
  split; [reflexivity|]. split.
  { replace (Z.to_nat (k + 1)) with (S (Z.to_nat k)) by lia. reflexivity. }
  intros y x c Hy Hx Hc.
  set (prev := Nat.iter (Z.to_nat k) ref (data input)) in *.
  set (center := rd prev (idx (width input) y x c)).
  set (nb := neighbors (width input) prev y x c).
  assert (buffer_ok (width input) (height input) prev) as Hpbuf
    by now apply iter_reference_ok.
  assert (bytes_ok prev) as Hpbytes by now apply iter_reference_bytes.
  pose proof (idx_bounds (width input) (height input) y x c
                ltac:(lia) ltac:(lia) ltac:(lia)) as Hidx.
  assert (rd (ref prev) (idx (width input) y x c)
          = pixel_update expf alpha center nb) as Hnext.
  { apply rd_lookup; [lia|]. subst ref.
    rewrite reference_round_interior by (auto; lia). reflexivity. }
  assert (0 <= center < 256) as Hcenter.
  { destruct (buffer_lookup _ _ prev _ Hpbuf Hidx) as [b Hb].
    subst center. rewrite (rd_lookup _ _ b) by (auto; lia). eapply Hpbytes, Hb. }
  rewrite Hnext. split; intros Hedge.
  - now apply pixel_update_alpha_zero.
  - now apply pixel_update_edge.
Qed.

(** ** The single-process program *)

Section SerialFacts.

Variable expf : float32 → float32.
Variable alpha : float32.
Variable input : PPMImage.
Variable heap : list Z.

Local Abbreviation w := (width input).
Local Abbreviation h := (height input).
Local Abbreviation step := (serial_step expf alpha w h).

Local Abbreviation same_border := (same_border w h).

Lemma pass_same_border temp out :
  same_border (stencil_pass expf alpha w temp out (region_cells w 1 (h - 1))) out.
Proof.
  intros y x c Hy Hx Hc Hb. apply stencil_pass_miss.
  - unfold idx. nia.
  - intros [[y' x'] c'] Hin E. apply elem_of_region_cells in Hin.
    simpl in E. apply idx_inj in E; lia.
Qed.

(** The two buffers trade places at each turn: after an even number of
    turns [temp] has the border of the input and [output->data] the one of
    the block [main] allocated; after an odd number it is the other way
    round. *)
Lemma serial_borders (n : nat) :
  let '(temp, out) := Nat.iter n step (data input, heap) in
  (Z.of_nat n mod 2 = 0 → same_border temp (data input) ∧ same_border out heap)
  ∧ (Z.of_nat n mod 2 = 1 → same_border temp heap ∧ same_border out (data input)).
Proof.
  induction n as [|n IH].
  - cbn [Nat.iter nat_rect]. split; [|intros H; discriminate H].
    intros _. split; intros y x c _ _ _ _; reflexivity.
  - rewrite Nat.iter_succ. destruct (Nat.iter n step (data input, heap)) as [temp out].
    destruct IH as [IH0 IH1]. unfold serial_step. cbv beta iota.
    split; intros Hpar.
    + destruct (IH1 ltac:(Z.div_mod_to_equations; lia)) as [Ht Ho].
      split; [|assumption].
      intros y x c Hy Hx Hc Hb. rewrite pass_same_border by assumption.
      now apply Ho.
    + destruct (IH0 ltac:(Z.div_mod_to_equations; lia)) as [Ht Ho].
      split; [|assumption].
      intros y x c Hy Hx Hc Hb. rewrite pass_same_border by assumption.
      now apply Ho.
Qed.

Lemma serial_output_border (iterations : Z) :
  same_border (graph_diffusion_rgb expf input heap alpha iterations) heap.
Proof.
  unfold graph_diffusion_rgb.
  pose proof (serial_borders (Z.to_nat iterations)) as H.
  destruct (Nat.iter (Z.to_nat iterations) step (data input, heap)) as [temp out].
  destruct H as [H0 H1].
  destruct (Z.eqb_spec (Z.rem iterations 2) 1) as [E|E].
  - assert (0 <= iterations).
    { destruct (Z.le_gt_cases 0 iterations); [assumption|].
      pose proof (Z.rem_nonpos iterations 2 ltac:(lia) ltac:(lia)). lia. }
    rewrite Z.rem_mod_nonneg in E by lia.
    apply H1. rewrite Z2Nat.id by lia. assumption.
  - destruct (Z.le_gt_cases iterations 0) as [Hle|Hgt].
    + apply H0. replace (Z.to_nat iterations) with 0%nat by lia. reflexivity.
    + rewrite Z.rem_mod_nonneg in E by lia.
      apply H0. rewrite Z2Nat.id by lia.
      pose proof (Z.mod_pos_bound iterations 2 ltac:(lia)). lia.
Qed.

Lemma length_serial (iterations : Z) :
  length (data input) = length heap →
  length (graph_diffusion_rgb expf input heap alpha iterations) = length heap.
Proof.
  intros Hlen. unfold graph_diffusion_rgb.
  assert (∀ n, let '(temp, out) := Nat.iter n step (data input, heap) in
               length temp = length heap ∧ length out = length heap) as H.
  { induction n as [|n IH]; [now split|]. rewrite Nat.iter_succ.
    destruct (Nat.iter n step (data input, heap)) as [temp out].
    destruct IH as [Ht Ho]. unfold serial_step. cbv beta iota.
    now rewrite length_stencil_pass. }
  specialize (H (Z.to_nat iterations)).
  destruct (Nat.iter (Z.to_nat iterations) step (data input, heap)) as [temp out].
  destruct H. now destruct (Z.rem iterations 2 =? 1).
Qed.

(** After an even number of rounds the buffer returned is the one written
    one round earlier: the copy that follows the loop is only made for an
    odd count, and the last round went to the other buffer. *)
Lemma serial_even_is_stale (k : Z) :
  1 <= k →
  graph_diffusion_rgb expf input heap alpha (2 * k)
  = graph_diffusion_rgb expf input heap alpha (2 * k - 1).
Proof.
  intros Hk. unfold graph_diffusion_rgb.
  replace (Z.to_nat (2 * k)) with (S (Z.to_nat (2 * k - 1))) by lia.
  rewrite Nat.iter_succ.
  destruct (Nat.iter (Z.to_nat (2 * k - 1)) step (data input, heap)) as [temp out].
  unfold serial_step. cbv beta iota.
  rewrite !Z.rem_mod_nonneg by lia.
  replace ((2 * k) mod 2) with 0 by (symmetry; apply Z.mod_divide; [lia|]; exists k; lia).
  replace ((2 * k - 1) mod 2) with 1.
  - reflexivity.
  - replace (2 * k - 1) with (1 + (k - 1) * 2) by lia.
    now rewrite Z.mod_add by lia.
Qed.

(** With one round the program returns the output block with the
    interior cells overwritten. *)
Lemma serial_one_round_eq :
  graph_diffusion_rgb expf input heap alpha 1
  = stencil_pass expf alpha w (data input) heap (region_cells w 1 (h - 1)).
Proof.
  unfold graph_diffusion_rgb.
  change (Z.to_nat 1) with 1%nat. rewrite Nat.iter_succ.
  change (Nat.iter 0 step (data input, heap)) with (data input, heap).
  unfold serial_step. reflexivity.
Qed.

Lemma serial_one_round y x c :
  0 <= idx w y x c < Z.of_nat (length heap) →
  1 <= y < h - 1 → 1 <= x < w - 1 → 0 <= c < 3 →
  graph_diffusion_rgb expf input heap alpha 1 !! Z.to_nat (idx w y x c)
  = Some (cell_value expf alpha w (data input) (y, x, c)).
Proof.
  intros Hidx Hy Hx Hc. rewrite serial_one_round_eq.
  apply (stencil_pass_hit expf alpha w (data input) heap _ (y, x, c)).
  - apply region_cells_in.
  - apply elem_of_region_cells. lia.
  - assumption.
Qed.

End SerialFacts.

(** C2 on the serial path.  Every byte of a border row or column of the
    image [graph_diffusion_rgb] returns is the byte the output block held on
    entry, for every input, [alpha] and iteration count: the borders of the
    input never reach the output. *)
Theorem serial_border_from_heap (expf : float32 → float32) (input : PPMImage)
    (heap : list Z) (alpha : float32) (iterations : Z) (y x c : Z) :
  0 <= y < height input → 0 <= x < width input → 0 <= c < 3 →
  y = 0 ∨ y = height input - 1 ∨ x = 0 ∨ x = width input - 1 →
  graph_diffusion_rgb expf input heap alpha iterations
    !! Z.to_nat (idx (width input) y x c)
  = heap !! Z.to_nat (idx (width input) y x c).
Proof.
  intros Hy Hx Hc Hb. apply serial_output_border; lia.
Qed.

Lemma serial_border_from_heap_witness :
  (0 <= 0 < 3 ∧ 0 <= 0 < 3 ∧ 0 <= 0 < 3)
  ∧ graph_diffusion_rgb expf_ref (flat_image 3 3 128) (replicate 27 0) half 1
      !! Z.to_nat (idx 3 0 0 0)
    = Some 0
  ∧ data (flat_image 3 3 128) !! Z.to_nat (idx 3 0 0 0) = Some 128.
Proof.
  split; [lia|]. split; [|reflexivity].
  exact (serial_border_from_heap expf_ref (flat_image 3 3 128) (replicate 27 0)
           half 1 0 0 0 ltac:(simpl; lia) ltac:(simpl; lia) ltac:(lia) ltac:(lia)).
Defined.

(** C1 on the code.  (1) On the 3x3 image with every byte 128, one
    iteration, [alpha = 0.5], and an output block of zeros, the hybrid
    engine on one rank and the serial program return different images,
    whatever [expf] is: the first byte is 128 in one and 0 in the other.
    (2) On [dot_image] with two iterations and [alpha = 0.25] they differ
    for every content of the output block: the serial program returns the
    result of the first round. *)
Theorem serial_differs_from_parallel :
  (∀ expf,
     graph_diffusion_rgb_parallel expf (flat_image 3 3 128) half 1 0 1
     ≠ Some (graph_diffusion_rgb expf (flat_image 3 3 128) (replicate 27 0) half 1))
  ∧ (∀ heap,
       graph_diffusion_rgb_parallel expf_ref dot_image quarter 2 0 1
       ≠ Some (graph_diffusion_rgb expf_ref dot_image heap quarter 2)).
Proof.
  split.
  - intros expf E.
    assert (image_ok (flat_image 3 3 128)) as Himg
      by (repeat split; simpl; lia).
    pose proof (parallel_border_preserved expf (flat_image 3 3 128) half 1 0 1 _
                  0 0 0 Himg ltac:(simpl; lia) ltac:(simpl; lia) ltac:(lia) E
                  ltac:(simpl; lia) ltac:(simpl; lia) ltac:(lia) ltac:(lia)) as HP.
    rewrite (serial_output_border expf half (flat_image 3 3 128) (replicate 27 0)
               1 0 0 0) in HP by (simpl; lia).
    discriminate HP.
  - intros heap E.
    assert (graph_diffusion_rgb_parallel expf_ref dot_image quarter 2 0 1
            = Some [11; 11; 11; 11; 11; 11; 11; 11; 11; 11; 11; 11; 4; 4; 4;
                    11; 11; 11; 11; 11; 11; 11; 11; 11; 11; 11; 11]) as HP
      by (vm_compute; reflexivity).
    rewrite HP in E. injection E as E.
    pose proof (serial_even_is_stale expf_ref quarter dot_image heap 1 ltac:(lia))
      as Hstale.
    change (2 * 1 - 1) with 1 in Hstale. change (2 * 1) with 2 in Hstale.
    rewrite Hstale in E.
    assert (length heap = 27%nat) as Hlen.
    { rewrite serial_one_round_eq in E.
      apply (f_equal length) in E. rewrite length_stencil_pass in E.
      simpl in E. congruence. }
    pose proof (serial_one_round expf_ref quarter dot_image heap 1 1 0
                  ltac:(change (idx (width dot_image) 1 1 0) with 12; lia)
                  ltac:(simpl; lia) ltac:(simpl; lia) ltac:(lia)) as HS.
    rewrite <- E in HS.
    change (Z.to_nat (idx (width dot_image) 1 1 0)) with 12%nat in HS.
    cbn [lookup list_lookup] in HS.
    assert (cell_value expf_ref quarter (width dot_image) (data dot_image) (1, 1, 0) = 2)
      as HV by (vm_compute; reflexivity).
    rewrite HV in HS. discriminate HS.
Qed.

(** ** The rule of the specification, pixel by pixel *)





(** ** The two [main] functions *)

(** C6 as stated fails over two rounds: in [cross_image] the centre pixel
    is not an edge ([|smooth - center| <= 20.0]), and the run with
    [alpha = 0] and two iterations changes it from 100 to 40. *)
Lemma alpha_zero_run_changes_non_edge :
  rd (data cross_image) (idx 5 2 2 0) = 100
  ∧ le (edge_strength expf_ref (rd (data cross_image) (idx 5 2 2 0))
          (neighbors 5 (data cross_image) 2 2 0)) threshold = true
  ∧ ∃ out, graph_diffusion_rgb_parallel expf_ref cross_image zero 2 0 1 = Some out
           ∧ rd out (idx 5 2 2 0) = 40.
Proof.
  split; [reflexivity|]. split; [vm_compute; reflexivity|].
  eexists. split; [vm_compute; reflexivity|]. reflexivity.
Qed.

(** C8 as stated fails: with five ranks and an image of three rows the
    start-up checks of [main] let rank 4 through, the partition table gives
    it -9 bytes, and the run ends inside the computation. *)
Lemma worker_count_not_validated :
  hybrid_startup 5 1 (Some (flat_image 3 3 128)) 4
  = inr ([EvBcastFlag 0; EvBcastImage 3 3 (data (flat_image 3 3 128))],
         flat_image 3 3 128)
  ∧ recvcounts 3 3 5 4 = -9
  ∧ ∀ out_opens,
      hybrid_main expf_ref 5 half 1 (Some (flat_image 3 3 128)) out_opens 4 5
      = ([EvBcastFlag 0; EvBcastImage 3 3 (data (flat_image 3 3 128)); EvDiffusion],
         Aborted).
Proof. repeat split; try intros []; vm_compute; reflexivity. Qed.

(** C8 as the code has it.  Nothing compares the number of ranks with the
    height: with four arguments, a positive iteration count and an image
    that loads, every rank passes the checks of [main] and enters
    [graph_diffusion_rgb_parallel].  When there are more ranks than rows,
    the table built there gives every rank from [height] on zero rows and
    the byte count [-(3 * width)], and the first exchange is called with
    it: no rank returns. *)
Theorem no_worker_count_check (expf : float32 → float32) (argc : Z)
    (alpha : float32) (iterations : Z) (input : PPMImage) (out_opens : bool)
    (rank size : Z) :
  argc = 5 → 0 < iterations → 0 < width input →
  1 <= height input < size → 0 <= rank < size →
  hybrid_startup argc iterations (Some input) rank
  = inr ([EvBcastFlag 0; EvBcastImage (width input) (height input) (data input)],
         input)
  ∧ (∀ i, height input <= i →
       local_rows (height input) size i = 0
       ∧ recvcounts (width input) (height input) size i = - (3 * width input))
  ∧ hybrid_main expf argc alpha iterations (Some input) out_opens rank size
    = ([EvBcastFlag 0; EvBcastImage (width input) (height input) (data input);
        EvDiffusion], Aborted).
Proof.
  intros -> Hit Hw Hh Hr.
  assert (hybrid_startup 5 iterations (Some input) rank
          = inr ([EvBcastFlag 0;
                  EvBcastImage (width input) (height input) (data input)], input))
    as Hstart.
  { unfold hybrid_startup. change (negb (5 =? 5)) with false. cbv iota.
    destruct (Z.leb_spec iterations 0); [lia|reflexivity]. }
  split; [assumption|]. split.
  - intros i Hi.
    destruct (recvcounts_beyond_height (width input) (height input) size
                ltac:(lia) i ltac:(lia) Hi) as (H1 & _ & H2).
    now split.
  - unfold hybrid_main. rewrite Hstart.
    unfold graph_diffusion_rgb_parallel.
    rewrite parallel_fails by (auto; lia). reflexivity.
Qed.

Lemma no_worker_count_check_witness :
  (5 = 5 ∧ 0 < 1 ∧ 0 < 3 ∧ 1 <= 3 < 5 ∧ 0 <= 4 < 5)
  ∧ hybrid_startup 5 1 (Some (flat_image 3 3 128)) 4
    = inr ([EvBcastFlag 0; EvBcastImage 3 3 (data (flat_image 3 3 128))],
           flat_image 3 3 128)
  ∧ (∀ i, 3 <= i → local_rows 3 5 i = 0 ∧ recvcounts 3 3 5 i = - (3 * 3))
  ∧ hybrid_main expf_ref 5 half 1 (Some (flat_image 3 3 128)) true 4 5
    = ([EvBcastFlag 0; EvBcastImage 3 3 (data (flat_image 3 3 128)); EvDiffusion],
       Aborted).
Proof.
  split; [lia|].
  exact (no_worker_count_check expf_ref 5 half 1 (flat_image 3 3 128) true 4 5
           eq_refl ltac:(lia) ltac:(simpl; lia) ltac:(simpl; lia) ltac:(lia)).
Defined.

(** C9.  (1) A wrong argument count, a non-positive iteration count or an
    image that does not load make both programs return 1, on every rank,
    without reaching the diffusion and, in the hybrid program, without any
    broadcast of image data.  (2) When the image does not load, a rank of
    the hybrid program does exactly two things: the broadcast of the flag 1
    and [MPI_Finalize].  (3) Otherwise, when the output file can be opened,
    the serial program writes the image it computed and returns 0; and
    whenever the engine returns an image, every rank of the hybrid program
    returns 0, rank 0 having written that image after the diffusion.
    (4) When the output file cannot be opened, the serial program and
    rank 0 of the hybrid program write nothing and return no code: the
    unchecked null stream is handed to [fprintf]. *)
Theorem exit_behaviour (expf : float32 → float32) (argc : Z) (alpha : float32)
    (iterations : Z) (loaded : option PPMImage) (out_opens : bool)
    (rank size : Z) (heap : list Z) :
  (argc ≠ 5 ∨ iterations <= 0 ∨ loaded = None →
     ∃ tr tr',
       hybrid_main expf argc alpha iterations loaded out_opens rank size
       = (tr, Exit 1)
       ∧ serial_main expf argc alpha iterations loaded out_opens heap = (tr', Exit 1)
       ∧ ¬ In EvDiffusion tr ∧ ¬ In EvDiffusion tr'
       ∧ ∀ w h d, ¬ In (EvBcastImage w h d) tr)
  ∧ (argc = 5 → 0 < iterations → loaded = None →
       hybrid_main expf argc alpha iterations loaded out_opens rank size
       = ([EvBcastFlag 1; EvFinalize], Exit 1))
  ∧ (∀ input, argc = 5 → 0 < iterations → loaded = Some input →
       out_opens = true →
       serial_main expf argc alpha iterations loaded out_opens heap
       = ([EvDiffusion; EvTiming;
           EvWrite (width input) (height input)
                   (graph_diffusion_rgb expf input heap alpha iterations);
           EvTiming], Exit 0)
       ∧ ∀ out,
           graph_diffusion_rgb_parallel expf input alpha iterations rank size
           = Some out →
           hybrid_main expf argc alpha iterations loaded out_opens rank size
           = ([EvBcastFlag 0; EvBcastImage (width input) (height input) (data input);
               EvDiffusion]
                ++ (if rank =? 0
                    then [EvWrite (width input) (height input) out; EvTiming]
                    else [])
                ++ [EvFinalize], Exit 0))
  ∧ (∀ input, argc = 5 → 0 < iterations → loaded = Some input →
       out_opens = false →
       serial_main expf argc alpha iterations loaded out_opens heap
       = ([EvDiffusion; EvTiming], Undefined)
       ∧ ∀ out,
           graph_diffusion_rgb_parallel expf input alpha iterations 0 size
           = Some out →
           hybrid_main expf argc alpha iterations loaded out_opens 0 size
           = ([EvBcastFlag 0; EvBcastImage (width input) (height input) (data input);
               EvDiffusion], Undefined)).
Proof.
  split; [|split; [|split]].
  - intros Hbad. unfold hybrid_main, hybrid_startup, serial_main.
    destruct (Z.eqb_spec argc 5) as [E5|N5]; cbn [negb].
    2:{ eexists _, _. split; [reflexivity|]. split; [reflexivity|].
        destruct (rank =? 0); simpl; intuition discriminate. }
    destruct (Z.leb_spec iterations 0) as [Hle|Hgt].
    { eexists _, _. split; [reflexivity|]. split; [reflexivity|].
      destruct (rank =? 0); simpl; intuition discriminate. }
    destruct loaded as [input|]; [exfalso; intuition (try lia; discriminate)|].
    eexists _, _. split; [reflexivity|]. split; [reflexivity|].
    simpl; intuition discriminate.
  - intros -> Hit ->. unfold hybrid_main, hybrid_startup.
    change (negb (5 =? 5)) with false. cbv iota.
    destruct (Z.leb_spec iterations 0); [lia|reflexivity].
  - intros input -> Hit -> ->. split.
    + unfold serial_main. change (negb (5 =? 5)) with false. cbv iota.
      destruct (Z.leb_spec iterations 0); [lia|reflexivity].
    + intros out Hout. unfold hybrid_main, hybrid_startup.
      change (negb (5 =? 5)) with false. cbv iota.
      destruct (Z.leb_spec iterations 0); [lia|].
      rewrite Hout. reflexivity.
  - intros input -> Hit -> ->. split.
    + unfold serial_main. change (negb (5 =? 5)) with false. cbv iota.
      destruct (Z.leb_spec iterations 0); [lia|reflexivity].
    + intros out Hout. unfold hybrid_main, hybrid_startup.
      change (negb (5 =? 5)) with false. cbv iota.
      destruct (Z.leb_spec iterations 0); [lia|].
      rewrite Hout. reflexivity.
Qed.

Lemma exit_behaviour_witness :
  hybrid_main expf_ref 5 half 1 None true 3 4 = ([EvBcastFlag 1; EvFinalize], Exit 1)
  ∧ hybrid_main expf_ref 5 half 3 (Some (flat_image 4 4 128)) true 0 2
    = ([EvBcastFlag 0; EvBcastImage 4 4 (data (flat_image 4 4 128)); EvDiffusion;
        EvWrite 4 4 (data (flat_image 4 4 128)); EvTiming; EvFinalize], Exit 0)
  ∧ serial_main expf_ref 5 half 3 (Some (flat_image 4 4 128)) false []
    = ([EvDiffusion; EvTiming], Undefined).
Proof.
  split; [|split].
  - exact (proj1 (proj2 (exit_behaviour expf_ref 5 half 1 None true 3 4 []))
             eq_refl ltac:(lia) eq_refl).
  - exact (proj2 (proj1 (proj2 (proj2 (exit_behaviour expf_ref 5 half 3
                                         (Some (flat_image 4 4 128)) true 0 2 [])))
                    (flat_image 4 4 128) eq_refl ltac:(lia) eq_refl eq_refl)
             (data (flat_image 4 4 128)) ltac:(vm_compute; reflexivity)).
  - exact (proj1 (proj2 (proj2 (proj2 (exit_behaviour expf_ref 5 half 3
                                         (Some (flat_image 4 4 128)) false 0 2 [])))
                    (flat_image 4 4 128) eq_refl ltac:(lia) eq_refl eq_refl)).
Defined.

(** ** The theorems at sample inputs *)

Lemma bytes_ok_check (l : list Z) :
  forallb (λ b, (0 <=? b) && (b <? 256)) l = true → bytes_ok l.
Proof.
  intros H i b Hib. rewrite forallb_forall in H.
  specialize (H b ltac:(apply list_elem_of_In; eapply list_elem_of_lookup_2, Hib)).
  apply andb_prop in H as [H1 H2]. apply Z.leb_le in H1. apply Z.ltb_lt in H2. lia.
Qed.

Lemma reversed_ok (width height size : Z) :
  schedule_ok width height size (reversed width height size).
Proof. intros iter rank. apply reverse_Permutation. Qed.

Lemma engine_deterministic_witness :
  (∀ iter rank curr next,
     stencil_pass expf_ref zero 5 curr next (reversed 5 5 2 iter rank)
     = stencil_pass expf_ref zero 5 curr next
         (region_cells 5 (local_eff_start 5 2 rank) (local_eff_end 5 2 rank)))
  ∧ (∀ rank,
       graph_diffusion_rgb_parallel_sched expf_ref (reversed 5 5 2) cross_image
         zero 2 rank 2
       = graph_diffusion_rgb_parallel_sched expf_ref (sequential 5 5 2) cross_image
           zero 2 rank 2).
Proof.
  exact (engine_deterministic expf_ref cross_image zero 2 2
           (reversed 5 5 2) (sequential 5 5 2)
           (reversed_ok 5 5 2) (sequential_ok 5 5 2)).
Defined.

Lemma flat_gray_fixed_point_witness :
  (∀ s, expf_ref (S754_zero s) = one)
  ∧ graph_diffusion_rgb_parallel expf_ref (flat_image 4 4 128) half 3 1 2
    = Some (data (flat_image 4 4 128)).
Proof.
  split; [reflexivity|].
  apply (flat_gray_fixed_point expf_ref 1 2); [reflexivity | lia | lia].
Defined.

Lemma alpha_zero_round_witness :
  (is_zero zero = true ∧ image_ok cross_image ∧ bytes_ok (data cross_image))
  ∧ ∃ prev next,
      graph_diffusion_rgb_parallel expf_ref cross_image zero 1 0 1 = Some prev
      ∧ graph_diffusion_rgb_parallel expf_ref cross_image zero (1 + 1) 0 1 = Some next
      ∧ ∀ y x c,
          1 <= y <= 5 - 2 → 1 <= x <= 5 - 2 → 0 <= c <= 2 →
          let center := rd prev (idx 5 y x c) in
          let nb := neighbors 5 prev y x c in
          (le (edge_strength expf_ref center nb) threshold = true →
             rd next (idx 5 y x c) = center)
          ∧ (gt (edge_strength expf_ref center nb) threshold = true →
               rd next (idx 5 y x c)
               = to_uchar (clamp (smooth_value expf_ref center nb))).
Proof.
  assert (image_ok cross_image) as Himg by (repeat split; simpl; lia).
  assert (bytes_ok (data cross_image)) as Hbytes
    by (apply bytes_ok_check; vm_compute; reflexivity).
  split; [split; [reflexivity | split; assumption]|].
  exact (alpha_zero_round expf_ref cross_image zero 1 0 1 eq_refl Himg Hbytes
           ltac:(simpl; lia) ltac:(simpl; lia) ltac:(lia) ltac:(lia)).
Defined.

(** ** Reading and writing PPM files *)

Lemma isdigit_char (d : Z) : 0 <= d < 10 → isdigit (48 + d) = true.
Proof. intros H. unfold isdigit. apply andb_true_intro. split; lia. Qed.

Lemma isdigit_not_space (c : Z) : isdigit c = true → isspace c = false.
Proof. unfold isdigit, isspace. lia. Qed.

Lemma digits_fuel_first (fuel : nat) (n : Z) (acc : list Z) :
  digit_first acc → digit_first (digits_fuel fuel n acc).
Proof.
  revert n acc. induction fuel as [|fuel IH]; intros n acc Hacc; [exact Hacc|].
  cbn [digits_fuel].
  assert (digit_first ((48 + n mod 10) :: acc)) as H'.
  { eexists _, _. split; [reflexivity|]. apply isdigit_char.
    apply Z.mod_pos_bound. lia. }
  destruct (n / 10 =? 0); [exact H' | now apply IH].
Qed.

Lemma digits_fuel_S_first (fuel : nat) (n : Z) :
  digit_first (digits_fuel (S fuel) n []).
Proof.
  cbn [digits_fuel].
  assert (digit_first [48 + n mod 10]) as H'.
  { eexists _, _. split; [reflexivity|]. apply isdigit_char.
    apply Z.mod_pos_bound. lia. }
  destruct (n / 10 =? 0); [exact H' | now apply digits_fuel_first].
Qed.

Lemma scan_digits_stop (l : list Z) (acc : Z) :
  no_digit_first l → scan_digits l acc = (acc, l).
Proof. destruct l as [|c r]; cbn; [reflexivity|]. now intros ->. Qed.

(** Reading back the digits that were printed. *)
Lemma scan_digits_fuel (fuel : nat) (n : Z) (acc rest : list Z) :
  0 <= n < Z.of_nat fuel →
  scan_digits (digits_fuel fuel n acc ++ rest) 0 = scan_digits (acc ++ rest) n.
Proof.
  revert n acc. induction fuel as [|fuel IH]; intros n acc Hn; [lia|].
  cbn [digits_fuel].
  pose proof (Z.mod_pos_bound n 10 ltac:(lia)) as Hm.
  pose proof (Z.div_mod n 10 ltac:(lia)) as Hd.
  destruct (Z.eqb_spec (n / 10) 0) as [E|E].
  - cbn [app scan_digits]. rewrite isdigit_char by assumption.
    f_equal. lia.
  - assert (0 <= n / 10) by (apply Z.div_pos; lia).
    rewrite IH by lia.
    cbn [app scan_digits]. rewrite isdigit_char by assumption.
    f_equal. lia.
Qed.

Lemma skip_space_digit_first (l : list Z) : digit_first l → skip_space l = l.
Proof.
  intros (c & r & -> & Hc). cbn [skip_space].
  now rewrite (isdigit_not_space c Hc).
Qed.

Lemma digit_first_app (l rest : list Z) : digit_first l → digit_first (l ++ rest).
Proof. intros (c & r & -> & Hc). now exists c, (r ++ rest). Qed.

(** [%d] after [%d]: the number printed is the number read, and the input
    that follows is left unread, provided it does not start with a digit. *)
Lemma scan_d_print_d (n : Z) (rest : list Z) :
  no_digit_first rest → scan_d (print_d n ++ rest) = (Some n, rest).
Proof.
  intros Hrest. unfold print_d. destruct (Z.ltb_spec n 0) as [Hneg|Hpos].
  - unfold scan_d. cbn [app skip_space].
    change (isspace 45) with false. cbv iota. change (45 =? 45) with true. cbv iota.
    pose proof (digits_fuel_S_first (Z.to_nat (- n)) (- n)) as Hf.
    destruct (digit_first_app _ rest Hf) as (c & r & E & Hc).
    rewrite E, Hc, <- E.
    rewrite scan_digits_fuel by lia. cbn [app].
    rewrite scan_digits_stop by assumption. do 2 f_equal. lia.
  - unfold scan_d.
    pose proof (digits_fuel_S_first (Z.to_nat n) n) as Hf.
    rewrite skip_space_digit_first by now apply digit_first_app.
    destruct (digit_first_app _ rest Hf) as (c & r & E & Hc).
    rewrite E.
    assert ((c =? 45) = false ∧ (c =? 43) = false) as [-> ->]
      by (unfold isdigit in Hc; lia).
    rewrite Hc, <- E.
    rewrite scan_digits_fuel by lia. cbn [app].
    now rewrite scan_digits_stop by assumption.
Qed.

Lemma scan_d_space (c : Z) (l : list Z) :
  isspace c = true → scan_d (c :: l) = scan_d l.
Proof. intros Hc. unfold scan_d. cbn [skip_space]. now rewrite Hc. Qed.

(** What [read_ppm] makes of a header followed by [body]. *)
Lemma read_ppm_header (c0 w h maxval : Z) (body : list Z) :
  isspace c0 = false →
  int_ok w = true → int_ok h = true → int_ok maxval = true →
  int_ok (w * h) = true → int_ok (w * h * 3) = true → 0 <= w * h * 3 →
  read_ppm (Some (ppm_header c0 w h maxval ++ body))
  = if Z.of_nat (length body) <? w * h * 3 then Load_failed Err_data
    else Loaded {| width := w; height := h;
                   data := take (Z.to_nat (w * h * 3)) body |}.
Proof.
  intros Hc0 Hw Hh Hm Hwh Hn Hpos.
  unfold read_ppm, ppm_header. rewrite <- !app_assoc. cbn [app].
  unfold scan_s2. cbn [skip_space]. rewrite Hc0.
  change (isspace 54) with false. cbv iota.
  change (nth 1 [c0; 54] 0 =? 54) with true. cbn [negb].
  rewrite scan_d_space by reflexivity.
  rewrite scan_d_print_d by reflexivity.
  rewrite Hw. cbn [negb].
  rewrite scan_d_space by reflexivity.
  rewrite scan_d_print_d by reflexivity.
  rewrite Hh. cbn [negb].
  rewrite scan_d_space by reflexivity.
  rewrite scan_d_print_d by reflexivity.
  cbn [from_option]. rewrite Hm. cbn [negb drop].
  rewrite Hwh, Hn. cbn [andb negb].
  destruct (Z.ltb_spec (w * h * 3) 0); [lia|reflexivity].
Qed.

Lemma write_ppm_header (img : PPMImage) :
  write_ppm img
  = ppm_header 80 (width img) (height img) 255
    ++ take (Z.to_nat (width img * height img * 3)) (data img).
Proof.
  unfold write_ppm, ppm_header. rewrite <- !app_assoc. reflexivity.
Qed.

Lemma read_write_round_trip_inv (img : PPMImage) :
  int_ok (width img) = true → int_ok (height img) = true →
  int_ok (width img * height img) = true →
  int_ok (width img * height img * 3) = true →
  buffer_ok (width img) (height img) (data img) →
  read_ppm (Some (write_ppm img)) = Loaded img.
Proof.
  intros Hw Hh Hwh Hn Hbuf. unfold buffer_ok in Hbuf.
  rewrite write_ppm_header, read_ppm_header by (auto; lia).
  rewrite length_take.
  destruct (Z.ltb_spec (Z.of_nat (Z.to_nat (width img * height img * 3)
                                  `min` length (data img)))
                       (width img * height img * 3)); [lia|].
  rewrite take_take, Nat.min_id, take_ge by lia.
  now destruct img.
Qed.

(** X1.  A file written by [write_ppm] is read back by [read_ppm] as the
    same image, when the buffer holds [width * height * 3] bytes and the
    sizes fit an [int]. *)
Theorem read_write_round_trip (img : PPMImage) :
  int_ok (width img) = true → int_ok (height img) = true →
  int_ok (width img * height img) = true →
  int_ok (width img * height img * 3) = true →
  buffer_ok (width img) (height img) (data img) →
  read_ppm (Some (write_ppm img)) = Loaded img.
Proof. apply read_write_round_trip_inv. Qed.

Lemma read_write_round_trip_witness :
  buffer_ok 5 5 (data cross_image)
  ∧ read_ppm (Some (write_ppm cross_image)) = Loaded cross_image.
Proof.
  split; [reflexivity|].
  apply (read_write_round_trip cross_image); reflexivity.
Defined.

(** X2.  [read_ppm] checks neither the first character of the magic
    number nor the maximum value, and it ignores what follows the pixel
    data: any header whose second character is '6' loads. *)
Theorem read_ppm_unchecked_fields (c0 w h maxval : Z) (pixels trailing : list Z) :
  isspace c0 = false →
  int_ok w = true → int_ok h = true → int_ok maxval = true →
  int_ok (w * h) = true → int_ok (w * h * 3) = true →
  buffer_ok w h pixels →
  read_ppm (Some (ppm_header c0 w h maxval ++ pixels ++ trailing))
  = Loaded {| width := w; height := h; data := pixels |}.
Proof.
  intros Hc0 Hw Hh Hm Hwh Hn Hbuf. unfold buffer_ok in Hbuf.
  rewrite read_ppm_header by (auto; lia).
  rewrite length_app.
  destruct (Z.ltb_spec (Z.of_nat (length pixels + length trailing)) (w * h * 3));
    [lia|].
  rewrite take_app_length' by lia. reflexivity.
Qed.

Lemma read_ppm_unchecked_fields_witness :
  (isspace 88 = false ∧ buffer_ok 2 1 [1; 2; 3; 4; 5; 6])
  ∧ read_ppm (Some (ppm_header 88 2 1 65535 ++ [1; 2; 3; 4; 5; 6] ++ [7; 7]))
    = Loaded {| width := 2; height := 1; data := [1; 2; 3; 4; 5; 6] |}.
Proof.
  split; [split; reflexivity|].
  apply (read_ppm_unchecked_fields 88 2 1 65535 [1; 2; 3; 4; 5; 6] [7; 7]);
    reflexivity.
Defined.

(** X3.  A file with a well-formed header and fewer than
    [width * height * 3] bytes after it is refused with the data error. *)
Theorem read_ppm_truncated (c0 w h maxval : Z) (body : list Z) :
  isspace c0 = false →
  int_ok w = true → int_ok h = true → int_ok maxval = true →
  int_ok (w * h) = true → int_ok (w * h * 3) = true →
  Z.of_nat (length body) < w * h * 3 →
  read_ppm (Some (ppm_header c0 w h maxval ++ body)) = Load_failed Err_data.
Proof.
  intros Hc0 Hw Hh Hm Hwh Hn Hlen.
  rewrite read_ppm_header by (auto; lia).
  destruct (Z.ltb_spec (Z.of_nat (length body)) (w * h * 3)); [reflexivity|lia].
Qed.

Lemma read_ppm_truncated_witness :
  Z.of_nat (length [1; 2; 3; 4; 5]) < 2 * 1 * 3
  ∧ read_ppm (Some (ppm_header 80 2 1 255 ++ [1; 2; 3; 4; 5])) = Load_failed Err_data.
Proof.
  split; [reflexivity|].
  apply (read_ppm_truncated 80 2 1 255 [1; 2; 3; 4; 5]); reflexivity.
Defined.

Lemma read_ppm_loaded_inv (file : option (list Z)) (img : PPMImage) :
  read_ppm file = Loaded img →
  int_ok (width img) = true ∧ int_ok (height img) = true
  ∧ 0 <= width img * height img * 3 <= 2147483647
  ∧ buffer_ok (width img) (height img) (data img).
Proof.
  unfold read_ppm. intros H.
  destruct file as [bytes|]; [|discriminate H].
  destruct (scan_s2 bytes) as [[version r0]|]; [|discriminate H].
  destruct (negb (nth 1 version 0 =? 54)); [discriminate H|].
  destruct (scan_d r0) as [[w|] r1]; [|discriminate H].
  destruct (int_ok w) eqn:Hw; [|discriminate H]. cbn [negb] in H.
  destruct (scan_d r1) as [[h|] r2]; [|discriminate H].
  destruct (int_ok h) eqn:Hh; [|discriminate H]. cbn [negb] in H.
  destruct (scan_d r2) as [maxval r3].
  destruct (negb (from_option int_ok true maxval)); [discriminate H|].
  destruct (int_ok (w * h) && int_ok (w * h * 3)) eqn:Hn; [|discriminate H].
  cbn [negb] in H.
  destruct (Z.ltb_spec (w * h * 3) 0) as [|Hpos]; [discriminate H|].
  destruct (Z.ltb_spec (Z.of_nat (length (drop 1 r3))) (w * h * 3)) as [|Hlen];
    [discriminate H|].
  injection H as <-. cbn [width height data].
  apply andb_prop in Hn as [_ Hn]. unfold int_ok in Hn.
  repeat split; try assumption; try lia.
  unfold buffer_ok. rewrite length_take. lia.
Qed.

(** X4.  Every image [read_ppm] returns has dimensions that fit an [int],
    a non-negative byte count, and exactly [width * height * 3] bytes of
    data. *)
Theorem read_ppm_loaded_ok (file : option (list Z)) (img : PPMImage) :
  read_ppm file = Loaded img →
  int_ok (width img) = true ∧ int_ok (height img) = true
  ∧ 0 <= width img * height img * 3 <= 2147483647
  ∧ buffer_ok (width img) (height img) (data img).
Proof. apply read_ppm_loaded_inv. Qed.

Lemma read_ppm_loaded_ok_witness :
  read_ppm (Some (write_ppm dot_image)) = Loaded dot_image
  ∧ buffer_ok (width dot_image) (height dot_image) (data dot_image).
Proof.
  assert (read_ppm (Some (write_ppm dot_image)) = Loaded dot_image) as H
    by reflexivity.
  split; [exact H|].
  exact (proj2 (proj2 (proj2 (read_ppm_loaded_ok _ _ H)))).
Defined.

(** ** More on the engine and on the serial program *)

(** X5.  With a positive iteration count the hybrid engine returns an
    image exactly when the image has at least two rows and there are no
    more ranks than rows; otherwise the first exchange is called with a
    negative count. *)
Theorem parallel_runs_iff (expf : float32 → float32) (input : PPMImage)
    (alpha : float32) (iterations rank size : Z) :
  image_ok input → 1 <= size → 0 <= rank < size → 0 < iterations →
  is_Some (graph_diffusion_rgb_parallel expf input alpha iterations rank size)
  ↔ 2 <= height input ∧ size <= height input.
Proof.
  intros Himg Hs Hr Hit. pose proof Himg as (Hw & Hh & Hbuf).
  unfold graph_diffusion_rgb_parallel. split.
  - intros Hsome.
    destruct (decide (2 <= height input ∧ size <= height input)) as [H|H];
      [exact H|].
    rewrite parallel_fails in Hsome by (auto; lia).
    destruct Hsome as [out Hout]. discriminate Hout.
  - intros [H2 Hle].
    rewrite parallel_is_reference by (auto using sequential_ok; lia).
    eauto.
Qed.

Lemma parallel_runs_iff_witness :
  image_ok (flat_image 3 1 7)
  ∧ (is_Some (graph_diffusion_rgb_parallel expf_ref (flat_image 3 1 7) half 2 0 1)
     ↔ 2 <= 1 ∧ 1 <= 1).
Proof.
  assert (image_ok (flat_image 3 1 7)) as Himg by (repeat split; simpl; lia).
  split; [exact Himg|].
  exact (parallel_runs_iff expf_ref (flat_image 3 1 7) half 2 0 1 Himg
           ltac:(lia) ltac:(lia) ltac:(lia)).
Defined.

(** X6.  The image the hybrid engine returns does not depend on the
    number of ranks nor on the rank that returns it: for any two
    communicator sizes between 1 and the height, any two ranks return the
    same buffer, of the size of the input. *)
Theorem parallel_worker_count_independent (expf : float32 → float32)
    (input : PPMImage) (alpha : float32) (iterations : Z)
    (rank1 size1 rank2 size2 : Z) :
  image_ok input → 2 <= height input →
  1 <= size1 <= height input → 0 <= rank1 < size1 →
  1 <= size2 <= height input → 0 <= rank2 < size2 →
  ∃ out,
    graph_diffusion_rgb_parallel expf input alpha iterations rank1 size1 = Some out
    ∧ graph_diffusion_rgb_parallel expf input alpha iterations rank2 size2 = Some out
    ∧ buffer_ok (width input) (height input) out.
Proof.
  intros Himg Hh Hs1 Hr1 Hs2 Hr2. pose proof Himg as (Hw & _ & Hbuf).
  unfold graph_diffusion_rgb_parallel.
  rewrite !parallel_is_reference by (auto using sequential_ok).
  eexists. split; [reflexivity|]. split; [reflexivity|].
  now apply iter_reference_ok.
Qed.

Lemma parallel_worker_count_independent_witness :
  image_ok cross_image
  ∧ ∃ out,
      graph_diffusion_rgb_parallel expf_ref cross_image quarter 3 0 1 = Some out
      ∧ graph_diffusion_rgb_parallel expf_ref cross_image quarter 3 2 5 = Some out
      ∧ buffer_ok (width cross_image) (height cross_image) out.
Proof.
  assert (image_ok cross_image) as Himg by (repeat split; simpl; lia).
  split; [exact Himg|].
  exact (parallel_worker_count_independent expf_ref cross_image quarter 3 0 1 2 5
           Himg ltac:(simpl; lia) ltac:(simpl; lia) ltac:(lia)
           ltac:(simpl; lia) ltac:(lia)).
Defined.

(** X7.  On a valid configuration the hybrid engine returns an image whose
    border rows and border columns hold the bytes of the input. *)
Theorem parallel_keeps_borders (expf : float32 → float32) (input : PPMImage)
    (alpha : float32) (iterations rank size : Z) :
  image_ok input → 2 <= height input → 1 <= size <= height input →
  0 <= rank < size →
  ∃ out,
    graph_diffusion_rgb_parallel expf input alpha iterations rank size = Some out
    ∧ ∀ y x c,
        0 <= y < height input → 0 <= x < width input → 0 <= c < 3 →
        y = 0 ∨ y = height input - 1 ∨ x = 0 ∨ x = width input - 1 →
        out !! Z.to_nat (idx (width input) y x c)
        = data input !! Z.to_nat (idx (width input) y x c).
Proof.
  intros Himg Hh Hs Hr. pose proof Himg as (Hw & _ & Hbuf).
  unfold graph_diffusion_rgb_parallel.
  rewrite parallel_is_reference by (auto using sequential_ok).
  eexists. split; [reflexivity|].
  intros y x c Hy Hx Hc Hb. apply iter_reference_border; lia.
Qed.

Lemma parallel_keeps_borders_witness :
  image_ok cross_image
  ∧ ∃ out,
      graph_diffusion_rgb_parallel expf_ref cross_image zero 2 1 2 = Some out
      ∧ ∀ y x c,
          0 <= y < 5 → 0 <= x < 5 → 0 <= c < 3 →
          y = 0 ∨ y = 5 - 1 ∨ x = 0 ∨ x = 5 - 1 →
          out !! Z.to_nat (idx 5 y x c)
          = data cross_image !! Z.to_nat (idx 5 y x c).
Proof.
  assert (image_ok cross_image) as Himg by (repeat split; simpl; lia).
  split; [exact Himg|].
  exact (parallel_keeps_borders expf_ref cross_image zero 2 1 2
           Himg ltac:(simpl; lia) ltac:(simpl; lia) ltac:(lia)).
Defined.

(** X8.  With an even iteration count [2k] the serial program returns
    what it returns with [2k - 1] iterations: the last round is lost. *)
Theorem serial_even_iterations_lose_a_round (expf : float32 → float32)
    (input : PPMImage) (heap : list Z) (alpha : float32) (k : Z) :
  1 <= k →
  graph_diffusion_rgb expf input heap alpha (2 * k)
  = graph_diffusion_rgb expf input heap alpha (2 * k - 1).
Proof. intros Hk. now apply serial_even_is_stale. Qed.

Lemma serial_even_iterations_lose_a_round_witness :
  1 <= 2
  ∧ graph_diffusion_rgb expf_ref dot_image (replicate 27 0) quarter (2 * 2)
    = graph_diffusion_rgb expf_ref dot_image (replicate 27 0) quarter (2 * 2 - 1).
Proof.
  split; [lia|].
  apply (serial_even_iterations_lose_a_round expf_ref dot_image (replicate 27 0)
           quarter 2); lia.
Defined.

(** X9.  With one iteration the serial program and the hybrid engine store
    the same value in every interior cell, whatever the output block of the
    serial program held. *)
Theorem serial_one_iteration_interior (expf : float32 → float32)
    (input : PPMImage) (heap : list Z) (alpha : float32)
    (rank size : Z) (y x c : Z) :
  image_ok input → buffer_ok (width input) (height input) heap →
  2 <= height input → 1 <= size <= height input → 0 <= rank < size →
  1 <= y <= height input - 2 → 1 <= x <= width input - 2 → 0 <= c <= 2 →
  ∃ out,
    graph_diffusion_rgb_parallel expf input alpha 1 rank size = Some out
    ∧ graph_diffusion_rgb expf input heap alpha 1 !! Z.to_nat (idx (width input) y x c)
      = out !! Z.to_nat (idx (width input) y x c).
Proof.
  intros Himg Hheap Hh Hs Hr Hy Hx Hc. pose proof Himg as (Hw & _ & Hbuf).
  unfold graph_diffusion_rgb_parallel.
  rewrite parallel_is_reference by (auto using sequential_ok).
  eexists. split; [reflexivity|].
  change (Z.to_nat 1) with 1%nat. cbn [Nat.iter nat_rect].
  pose proof (idx_bounds (width input) (height input) y x c
                ltac:(lia) ltac:(lia) ltac:(lia)) as Hidx.
  rewrite serial_one_round by (unfold buffer_ok in Hheap; lia).
  now rewrite reference_round_interior by (auto; lia).
Qed.

Lemma serial_one_iteration_interior_witness :
  (image_ok dot_image ∧ buffer_ok 3 3 (replicate 27 0))
  ∧ ∃ out,
      graph_diffusion_rgb_parallel expf_ref dot_image quarter 1 0 1 = Some out
      ∧ graph_diffusion_rgb expf_ref dot_image (replicate 27 0) quarter 1
          !! Z.to_nat (idx 3 1 1 2)
        = out !! Z.to_nat (idx 3 1 1 2).
Proof.
  assert (image_ok dot_image) as Himg by (repeat split; simpl; lia).
  split; [split; [exact Himg | reflexivity]|].
  exact (serial_one_iteration_interior expf_ref dot_image (replicate 27 0) quarter
           0 1 1 1 2 Himg eq_refl ltac:(simpl; lia) ltac:(simpl; lia) ltac:(lia)
           ltac:(simpl; lia) ltac:(simpl; lia) ltac:(lia)).
Defined.

(** X10.  A uniform image of any size and any gray level is returned
    unchanged by the hybrid engine, for every finite [alpha], every
    iteration count and every valid number of ranks, provided
    [expf(+-0) = 1]. *)
Theorem uniform_image_fixed_point (expf : float32 → float32) (w h v : Z)
    (alpha : float32) (iterations rank size : Z) :
  (∀ s, expf (S754_zero s) = one) → is_finite alpha = true →
  0 < w → 2 <= h → 0 <= v < 256 → 1 <= size <= h → 0 <= rank < size →
  graph_diffusion_rgb_parallel expf (flat_image w h v) alpha iterations rank size
  = Some (data (flat_image w h v)).
Proof.
  intros Hexp Ha Hw Hh Hv Hs Hr. unfold graph_diffusion_rgb_parallel.
  rewrite parallel_is_reference.
  - f_equal. cbn [flat_image width height data].
    apply iter_reference_flat; auto; lia.
  - repeat split; cbn [flat_image width height data]; try lia.
    unfold buffer_ok. rewrite length_replicate. nia.
  - exact Hh.
  - exact Hs.
  - exact Hr.
  - apply sequential_ok.
Qed.

Lemma uniform_image_fixed_point_witness :
  (∀ s, expf_ref (S754_zero s) = one)
  ∧ graph_diffusion_rgb_parallel expf_ref (flat_image 7 5 200) quarter 4 2 3
    = Some (data (flat_image 7 5 200)).
Proof.
  split; [reflexivity|].
  apply (uniform_image_fixed_point expf_ref 7 5 200 quarter 4 2 3);
    [reflexivity | reflexivity | lia | lia | lia | lia | lia].
Defined.

(** X12.  When [alpha] is a NaN, a cell that is not an edge is set to 0;
    an edge cell still receives its smooth value. *)
Theorem pixel_update_alpha_nan (expf : float32 → float32) (center : Z)
    (nb : list Z) :
  pixel_update expf S754_nan center nb
  = if gt (edge_strength expf center nb) threshold
    then to_uchar (clamp (smooth_value expf center nb))
    else 0.
Proof.
  unfold pixel_update, edge_strength.
  destruct (gt _ threshold); [reflexivity|].
  assert (∀ d, mul S754_nan d = S754_nan) as -> by reflexivity.
  assert (∀ a, add a S754_nan = S754_nan) as -> by (intros [ | | | ]; reflexivity).
  reflexivity.
Qed.

(** X13.  The table of the exchange describes adjacent blocks: the block
    of rank 0 starts at row 1, each block ends where the next one starts,
    the last one ends at row [height - 1], and no count is negative. *)
Theorem exchange_blocks_contiguous (width height size : Z) :
  0 < width → 2 <= height → 1 <= size <= height →
  displs width height size 0 = 1 * width * 3
  ∧ (∀ i, 0 <= i → i + 1 < size →
       displs width height size i + recvcounts width height size i
       = displs width height size (i + 1))
  ∧ displs width height size (size - 1) + recvcounts width height size (size - 1)
    = (height - 1) * width * 3
  ∧ (∀ i, 0 <= i < size → 0 <= recvcounts width height size i).
Proof.
  intros Hw Hh Hs.
  assert (∀ i, 0 <= i < size →
            eff_start height size i
            = Z.max (local_start height size i) 1
            ∧ eff_end height size i
              = Z.min (local_end height size i) (height - 1)) as Heff.
  { intros i Hi. unfold eff_start, eff_end. rewrite Z.gtb_ltb.
    change (proc_start height size i) with (local_start height size i).
    change (proc_end height size i) with (local_end height size i).
    destruct (Z.ltb_spec (local_start height size i) 1),
             (Z.ltb_spec (height - 1) (local_end height size i)); lia. }
  assert (∀ i, 0 <= i < size →
            0 <= local_start height size i
            ∧ local_start height size i + 1 <= local_end height size i
            ∧ local_end height size i <= height) as Hloc.
  { intros i Hi.
    pose proof (local_start_nonneg height size ltac:(lia) ltac:(lia) i ltac:(lia)).
    pose proof (local_rows_pos height size ltac:(lia) ltac:(lia) i ltac:(lia)).
    pose proof (local_end_le_height height size ltac:(lia) ltac:(lia) i Hi).
    unfold local_end in *. lia. }
  split; [|split; [|split]].
  - unfold displs. destruct (Heff 0 ltac:(lia)) as [-> _].
    rewrite (local_start_0 height size) by lia. reflexivity.
  - intros i Hi Hi'. unfold displs, recvcounts.
    destruct (Heff i ltac:(lia)) as [Es Ee].
    destruct (Heff (i + 1) ltac:(lia)) as [Es' _].
    pose proof (local_end_next height size ltac:(lia) ltac:(lia) i Hi) as Hnext.
    pose proof (Hloc i ltac:(lia)). pose proof (Hloc (i + 1) ltac:(lia)).
    assert (eff_end height size i = eff_start height size (i + 1)) as E by lia.
    rewrite <- E. lia.
  - unfold displs, recvcounts.
    destruct (Heff (size - 1) ltac:(lia)) as [Es Ee].
    rewrite (local_end_last height size) in Ee by lia.
    assert (eff_end height size (size - 1) = height - 1) as -> by lia. lia.
  - intros i Hi. apply recvcounts_nonneg; auto.
Qed.

Lemma exchange_blocks_contiguous_witness :
  displs 4 5 3 0 = 1 * 4 * 3
  ∧ (∀ i, 0 <= i → i + 1 < 3 →
       displs 4 5 3 i + recvcounts 4 5 3 i = displs 4 5 3 (i + 1))
  ∧ displs 4 5 3 (3 - 1) + recvcounts 4 5 3 (3 - 1) = (5 - 1) * 4 * 3
  ∧ (∀ i, 0 <= i < 3 → 0 <= recvcounts 4 5 3 i).
Proof. apply (exchange_blocks_contiguous 4 5 3); lia. Defined.

(** X14.  With [alpha] a zero, an interior cell that is not an edge at the
    start of any of the [n] rounds holds after the run the value it holds
    in the input. *)
Theorem alpha_zero_pixel_stable (expf : float32 → float32) (input : PPMImage)
    (alpha : float32) (n rank size : Z) (y x c : Z) :
  is_zero alpha = true →
  image_ok input → bytes_ok (data input) →
  2 <= height input → 1 <= size <= height input → 0 <= rank < size → 0 <= n →
  1 <= y <= height input - 2 → 1 <= x <= width input - 2 → 0 <= c <= 2 →
  (∀ k prev, 0 <= k < n →
     graph_diffusion_rgb_parallel expf input alpha k rank size = Some prev →
     le (edge_strength expf (rd prev (idx (width input) y x c))
                            (neighbors (width input) prev y x c)) threshold = true) →
  ∃ out,
    graph_diffusion_rgb_parallel expf input alpha n rank size = Some out
    ∧ rd out (idx (width input) y x c) = rd (data input) (idx (width input) y x c).
Proof.
  intros Ha Himg Hbytes Hh Hs Hr Hn Hy Hx Hc Hcalm.
  pose proof Himg as (Hw & _ & Hbuf).
  set (ref := reference_round expf alpha (width input) (height input)).
  assert (∀ k, graph_diffusion_rgb_parallel expf input alpha k rank size
               = Some (Nat.iter (Z.to_nat k) ref (data input))) as Hrun.
  { intros k. unfold graph_diffusion_rgb_parallel.
    now rewrite parallel_is_reference by (auto using sequential_ok). }
  rewrite Hrun. eexists. split; [reflexivity|].
  assert (∀ m : nat, Z.of_nat m <= n →
            rd (Nat.iter m ref (data input)) (idx (width input) y x c)
            = rd (data input) (idx (width input) y x c)) as Hind.
  { induction m as [|m IH]; intros Hm; [reflexivity|].
    rewrite <- IH by lia. rewrite Nat.iter_succ.
    set (prev := Nat.iter m ref (data input)) in *.
    assert (buffer_ok (width input) (height input) prev) as Hpbuf
      by now apply iter_reference_ok.
    assert (bytes_ok prev) as Hpbytes by now apply iter_reference_bytes.
    pose proof (idx_bounds (width input) (height input) y x c
                  ltac:(lia) ltac:(lia) ltac:(lia)) as Hidx.
    rewrite (rd_lookup (ref prev) _
               (cell_value expf alpha (width input) prev (y, x, c)));
      [|lia|subst ref; apply reference_round_interior; auto; lia].
    unfold cell_value. apply pixel_update_alpha_zero; [assumption| |].
    - destruct (buffer_lookup _ _ prev _ Hpbuf Hidx) as [b Hb].
      rewrite (rd_lookup _ _ b) by (auto; lia). eapply Hpbytes, Hb.
    - apply (Hcalm (Z.of_nat m)); [lia|]. rewrite Hrun.
      now rewrite Nat2Z.id. }
  rewrite <- (Hind (Z.to_nat n)) by lia. reflexivity.
Qed.

(** X15.  The image the hybrid engine returns for an image loaded by
    [read_ppm], written by [write_ppm] with the dimensions of the input,
    is read back by [read_ppm] as that image. *)
Theorem parallel_output_loadable (expf : float32 → float32)
    (file : option (list Z)) (input : PPMImage) (alpha : float32)
    (iterations rank size : Z) (out : list Z) :
  read_ppm file = Loaded input →
  0 < width input → 2 <= height input →
  1 <= size <= height input → 0 <= rank < size →
  graph_diffusion_rgb_parallel expf input alpha iterations rank size = Some out →
  read_ppm (Some (write_ppm {| width := width input; height := height input;
                              data := out |}))
  = Loaded {| width := width input; height := height input; data := out |}.
Proof.
  intros Hload Hw Hh Hs Hr Hrun.
  destruct (read_ppm_loaded_inv file input Hload) as (Hiw & Hih & Hn & Hbuf).
  unfold graph_diffusion_rgb_parallel in Hrun.
  rewrite parallel_is_reference in Hrun
    by (auto using sequential_ok; repeat split; auto; lia).
  injection Hrun as <-.
  apply read_write_round_trip_inv; cbn [width height data]; auto.
  - unfold int_ok. nia.
  - unfold int_ok. lia.
  - now apply iter_reference_ok.
Qed.

Lemma alpha_zero_pixel_stable_witness :
  (image_ok cross_image ∧ bytes_ok (data cross_image))
  ∧ ∃ out,
      graph_diffusion_rgb_parallel expf_ref cross_image zero 2 0 1 = Some out
      ∧ rd out (idx (width cross_image) 3 1 0)
        = rd (data cross_image) (idx (width cross_image) 3 1 0).
Proof.
  assert (image_ok cross_image) as Himg by (repeat split; simpl; lia).
  assert (bytes_ok (data cross_image)) as Hbytes
    by (apply bytes_ok_check; vm_compute; reflexivity).
  split; [split; assumption|].
  apply (alpha_zero_pixel_stable expf_ref cross_image zero 2 0 1 3 1 0 eq_refl
           Himg Hbytes);
    try (simpl; lia).
  intros k prev Hk Hrun.
  assert (k = 0 ∨ k = 1) as [-> | ->] by lia;
    vm_compute in Hrun; injection Hrun as <-; vm_compute; reflexivity.
Defined.

Lemma parallel_output_loadable_witness :
  read_ppm (Some (write_ppm cross_image)) = Loaded cross_image
  ∧ match graph_diffusion_rgb_parallel expf_ref cross_image quarter 2 1 2 with
    | Some out =>
        read_ppm (Some (write_ppm {| width := 5; height := 5; data := out |}))
        = Loaded {| width := 5; height := 5; data := out |}
    | None => False
    end.
Proof.
  assert (read_ppm (Some (write_ppm cross_image)) = Loaded cross_image) as Hload
    by reflexivity.
  split; [exact Hload|].
  destruct (graph_diffusion_rgb_parallel expf_ref cross_image quarter 2 1 2)
    as [out|] eqn:E; [|vm_compute in E; discriminate E].
  exact (parallel_output_loadable expf_ref _ cross_image quarter 2 1 2 out Hload
           ltac:(simpl; lia) ltac:(simpl; lia) ltac:(simpl; lia) ltac:(lia) E).
Defined.

(** X11.  Whatever the float [result] of a cell is, a NaN and the
    infinities included, the value handed to the cast to [unsigned char]
    has an integral part between 0 and 255: the cast is always defined. *)
Theorem cast_stays_in_range (result : float32) :
  valid result = true → ∃ z, trunc (clamp result) = Some z ∧ 0 <= z <= 255.
Proof. apply clamp_range. Qed.

Lemma cast_stays_in_range_witness :
  valid (S754_infinity false) = true
  ∧ ∃ z, trunc (clamp (S754_infinity false)) = Some z ∧ 0 <= z <= 255.
Proof.
  split; [reflexivity|]. apply (cast_stays_in_range (S754_infinity false)).
  reflexivity.
Defined.

(** ** The sort of the median filter *)

Lemma length_compare_swap (i j : nat) (l : list Z) :
  length (compare_swap i j l) = length l.
Proof.
  unfold compare_swap. destruct (_ >? _); [now rewrite !length_insert | reflexivity].
Qed.

Lemma insert_swap (l1 : list Z) (a : Z) (l2 : list Z) (b : Z) (l3 : list Z) (x y : Z) :
  <[(length l1 + S (length l2))%nat := x]>
    (<[length l1 := y]> (l1 ++ a :: l2 ++ b :: l3))
  = l1 ++ y :: l2 ++ x :: l3.
Proof.
  rewrite (insert_app_r_alt l1 _ (length l1)) by lia.
  rewrite Nat.sub_diag.
  change (<[0%nat:=y]> (a :: l2 ++ b :: l3)) with (y :: l2 ++ b :: l3).
  rewrite (insert_app_r_alt l1 _ (length l1 + S (length l2))) by lia.
  replace (length l1 + S (length l2) - length l1)%nat with (S (length l2)) by lia.
  change (<[S (length l2):=x]> (y :: l2 ++ b :: l3))
    with (y :: <[length l2:=x]> (l2 ++ b :: l3)).
  do 2 f_equal.
  rewrite (insert_app_r_alt l2 _ (length l2)) by lia.
  rewrite Nat.sub_diag. reflexivity.
Qed.

Lemma list_split2 (l : list Z) (i j : nat) :
  (i < j < length l)%nat →
  ∃ l1 l2 l3, l = l1 ++ (l !!! i) :: l2 ++ (l !!! j) :: l3
              ∧ length l1 = i ∧ (i + S (length l2))%nat = j.
Proof.
  intros [Hij Hj].
  exists (take i l), (take (j - S i) (drop (S i) l)),
         (drop (S (j - S i)) (drop (S i) l)).
  split; [|split].
  - rewrite (take_drop_middle (drop (S i) l) (j - S i) (l !!! j)).
    + symmetry. apply take_drop_middle.
      apply list_lookup_lookup_total_lt. lia.
    + rewrite lookup_drop. replace (S i + (j - S i))%nat with j by lia.
      now apply list_lookup_lookup_total_lt.
  - rewrite length_take. lia.
  - rewrite length_take, length_drop. lia.
Qed.

Lemma compare_swap_Permutation (i j : nat) (l : list Z) :
  (i < j < length l)%nat → compare_swap i j l ≡ₚ l.
Proof.
  intros Hij. unfold compare_swap. destruct (_ >? _); [|reflexivity].
  destruct (list_split2 l i j Hij) as (l1 & l2 & l3 & E & H1 & H2).
  remember (l !!! i) as a. remember (l !!! j) as b.
  rewrite E. rewrite <- H2, <- H1. rewrite insert_swap.
  apply Permutation_app_head.
  rewrite <- !Permutation_middle. apply perm_swap.
Qed.

Lemma compare_swap_lookup (i j : nat) (l : list Z) :
  (i < j < length l)%nat →
  compare_swap i j l !!! i = Z.min (l !!! i) (l !!! j)
  ∧ compare_swap i j l !!! j = Z.max (l !!! i) (l !!! j)
  ∧ ∀ k, k ≠ i → k ≠ j → compare_swap i j l !!! k = l !!! k.
Proof.
  intros Hij. unfold compare_swap. rewrite Z.gtb_ltb.
  destruct (Z.ltb_spec (l !!! j) (l !!! i)) as [Hlt|Hge].
  - split; [|split].
    + rewrite list_lookup_total_insert_ne by lia.
      rewrite list_lookup_total_insert_eq by lia. lia.
    + rewrite list_lookup_total_insert_eq by (rewrite length_insert; lia). lia.
    + intros k Hi Hj. now rewrite !list_lookup_total_insert_ne by lia.
  - split; [lia|]. split; [lia|]. reflexivity.
Qed.

(** The inner loop for a given [i], stopped after [m] turns. *)
Lemma inner_loop_spec (i m : nat) (l : list Z) :
  (S i + m <= length l)%nat → ordered_upto i l →
  let l' := fold_left (λ l j, compare_swap i j l) (seq (S i) m) l in
  length l' = length l
  ∧ ordered_upto i l'
  ∧ (∀ b : nat, (i < b < S i + m)%nat → l' !!! i <= l' !!! b)
  ∧ l' ≡ₚ l.
Proof.
  intros Hm Hord. induction m as [|m IH].
  - cbn [seq fold_left]. repeat split; try assumption; try reflexivity.
    intros b Hb. lia.
  - rewrite seq_S, fold_left_app. cbn [fold_left].
    destruct (IH ltac:(lia)) as (Hlen & Hord' & Hmin & Hperm).
    set (l1 := fold_left (λ l j, compare_swap i j l) (seq (S i) m) l) in *.
    assert (i < S i + m < length l1)%nat as Hij by lia.
    destruct (compare_swap_lookup i (S i + m) l1 Hij) as (Ei & Ej & Ek).
    cbv zeta. split; [|split; [|split]].
    + now rewrite length_compare_swap.
    + intros a b Ha Hb. rewrite length_compare_swap in Hb.
      rewrite (Ek a) by lia.
      pose proof (Hord' a i Ha ltac:(lia)).
      pose proof (Hord' a (S i + m)%nat Ha ltac:(lia)).
      destruct (decide (b = i)) as [->|Hbi]; [rewrite Ei; lia|].
      destruct (decide (b = (S i + m)%nat)) as [->|Hbj]; [rewrite Ej; lia|].
      rewrite (Ek b) by assumption. now apply Hord'.
    + intros b Hb. rewrite Ei.
      destruct (decide (b = (S i + m)%nat)) as [->|Hbj]; [rewrite Ej; lia|].
      rewrite (Ek b) by lia.
      pose proof (Hmin b ltac:(lia)). lia.
    + now rewrite compare_swap_Permutation.
Qed.

Lemma outer_loop_spec (n k : nat) (l : list Z) :
  length l = n → (k <= n)%nat →
  let l' := fold_left
              (λ l i, fold_left (λ l j, compare_swap i j l) (seq (S i) (n - S i)) l)
              (seq 0 k) l in
  length l' = n ∧ ordered_upto k l' ∧ l' ≡ₚ l.
Proof.
  intros Hlen Hk. induction k as [|k IH].
  - cbn [seq fold_left]. repeat split; try assumption; try reflexivity.
    intros a b Ha. lia.
  - rewrite seq_S, fold_left_app. cbn [fold_left].
    destruct (IH ltac:(lia)) as (Hlen' & Hord & Hperm).
    set (l1 := fold_left _ (seq 0 k) l) in *.
    destruct (inner_loop_spec (0 + k) (n - S (0 + k)) l1 ltac:(simpl; lia) Hord)
      as (Hl2 & Hord2 & Hmin & Hperm2).
    cbv zeta in Hl2, Hord2, Hmin, Hperm2.
    set (l2 := fold_left (λ l j, compare_swap (0 + k) j l) _ l1) in *.
    cbv zeta. split; [lia|]. split; [|now rewrite Hperm2].
    intros a b Ha Hb.
    destruct (decide (a = k)) as [->|Hak].
    + apply (Hmin b). lia.
    + apply Hord2; lia.
Qed.

Lemma sort_loops_spec (n : nat) (l : list Z) :
  length l = n →
  sort_loops n l ≡ₚ l
  ∧ ∀ a b : nat, (a <= b < n)%nat → sort_loops n l !!! a <= sort_loops n l !!! b.
Proof.
  intros Hlen.
  destruct (outer_loop_spec n n l Hlen ltac:(lia)) as (Hl & Hord & Hperm).
  split; [exact Hperm|].
  intros a b Hab. destruct (decide (a = b)) as [->|Hne]; [lia|].
  apply Hord; unfold sort_loops; lia.
Qed.

Lemma filter_all (P : Z → Prop) `{∀ x, Decision (P x)} (l : list Z) :
  Forall P l → filter P l = l.
Proof.
  induction 1 as [|x l Hx Hl IH]; [reflexivity|].
  rewrite filter_cons_True by assumption. now rewrite IH.
Qed.

(** Two predicates that together hold for more elements than the list has
    share an element. *)
Lemma filter_overlap (P Q : Z → Prop) `{∀ x, Decision (P x)} `{∀ x, Decision (Q x)}
    (l : list Z) :
  (length l < length (filter P l) + length (filter Q l))%nat →
  ∃ x, x ∈ l ∧ P x ∧ Q x.
Proof.
  induction l as [|x l IH]; intros Hlen; [simpl in Hlen; lia|].
  destruct (decide (P x ∧ Q x)) as [[HP HQ]|Hno].
  - exists x. split; [now left | now split].
  - destruct IH as (z & Hz & HPz & HQz).
    + rewrite !filter_cons in Hlen. cbn [length] in Hlen.
      destruct (decide (P x)), (decide (Q x)); cbn [length] in Hlen;
        try lia; tauto.
    + exists z. split; [now right | now split].
Qed.

Lemma length_window (width : Z) (data : list Z) (y x c : Z) :
  length (window width data y x c) = 9%nat.
Proof. reflexivity. Qed.

(** The rank of the median among the nine values. *)
Lemma median_rank (l : list Z) :
  length l = 9%nat →
  let m : Z := sort_loops 9 l !!! 4%nat in
  m ∈ l
  ∧ (5 <= length (filter (λ v : Z, (v <= m)%Z) l))%nat
  ∧ (5 <= length (filter (λ v : Z, (m <= v)%Z) l))%nat.
Proof.
  intros Hlen. destruct (sort_loops_spec 9 l Hlen) as (Hperm & Hsorted).
  set (s := sort_loops 9 l) in *. cbv zeta.
  assert (length s = 9%nat) as Hs by now rewrite Hperm.
  assert (∀ a b : nat, (a <= b < 9)%nat → s !!! a <= s !!! b) as Hsorted' by exact Hsorted.
  clear Hsorted. remember (s !!! 4%nat) as m eqn:Em.
  split; [|split].
  - rewrite <- Hperm, Em. apply list_elem_of_lookup_total_2. lia.
  - rewrite <- Hperm. rewrite <- (take_drop 5 s). rewrite filter_app, length_app.
    rewrite filter_all; [rewrite length_take; lia|].
    apply Forall_lookup. intros i v Hv.
    pose proof (lookup_lt_Some _ _ _ Hv) as Hi. rewrite length_take in Hi.
    rewrite lookup_take_lt in Hv by lia.
    apply list_lookup_total_correct in Hv as <-. rewrite Em. apply Hsorted'. lia.
  - rewrite <- Hperm. rewrite <- (take_drop 4 s). rewrite filter_app, length_app.
    rewrite (filter_all _ (drop 4 s)); [rewrite length_drop; lia|].
    apply Forall_lookup. intros i v Hv.
    pose proof (lookup_lt_Some _ _ _ Hv) as Hi. rewrite length_drop in Hi.
    rewrite lookup_drop in Hv.
    apply list_lookup_total_correct in Hv as <-. rewrite Em. apply Hsorted'. lia.
Qed.

(** ** The median filter *)

Section WriteCells.

Variable w : Z.
Variable f : cell → Z.

Local Abbreviation write_cells :=
  (fold_left (λ out cl, wr out (cell_idx w cl) (f cl))).

Lemma length_write_cells order next :
  length (write_cells order next) = length next.
Proof.
  revert next. induction order as [|cl order IH]; intros next; simpl; [reflexivity|].
  rewrite IH. apply length_wr.
Qed.

Lemma write_cells_miss order next (i : Z) :
  0 <= i → (∀ cl, cl ∈ order → cell_idx w cl ≠ i) →
  write_cells order next !! Z.to_nat i = next !! Z.to_nat i.
Proof.
  intros Hi. revert next.
  induction order as [|cl order IH]; intros next Hne; simpl; [reflexivity|].
  rewrite IH by (intros cl' Hcl'; apply Hne; now right).
  apply wr_lookup_ne; [assumption|]. apply Hne. now left.
Qed.

Lemma write_cells_hit order next (cl : cell) :
  cells_in w order → cl ∈ order →
  0 <= cell_idx w cl < Z.of_nat (length next) →
  write_cells order next !! Z.to_nat (cell_idx w cl) = Some (f cl).
Proof.
  revert next.
  induction order as [|cl0 order IH]; intros next Hin Hcl Hidx; [inv Hcl|].
  simpl. destruct (decide (cl ∈ order)) as [Hmem|Hnot].
  - apply IH; [|assumption|].
    + intros y x c H. apply (Hin y x c). now right.
    + now rewrite length_wr.
  - assert (cl = cl0) as <- by (inv Hcl; [reflexivity|contradiction]).
    rewrite write_cells_miss; [apply wr_lookup_eq; assumption|lia|].
    intros cl' Hcl' E. apply Hnot.
    assert (cl' = cl) as <-; [|assumption].
    apply (cell_idx_inj w (cl :: order)); [assumption|now right|now left|assumption].
Qed.

End WriteCells.

(** X16.  The two nested loops of the median filter sort the nine values
    of the window: the result is a rearrangement of the window in
    non-decreasing order. *)
Theorem window_sort_sorts (l : list Z) :
  length l = 9%nat →
  sort_loops 9 l ≡ₚ l
  ∧ ∀ a b : nat, (a <= b < 9)%nat → sort_loops 9 l !!! a <= sort_loops 9 l !!! b.
Proof. apply sort_loops_spec. Qed.

Lemma window_sort_sorts_witness :
  sort_loops 9 [9; 3; 7; 1; 8; 2; 6; 5; 4] ≡ₚ [9; 3; 7; 1; 8; 2; 6; 5; 4]
  ∧ ∀ a b : nat, (a <= b < 9)%nat →
      sort_loops 9 [9; 3; 7; 1; 8; 2; 6; 5; 4] !!! a
      <= sort_loops 9 [9; 3; 7; 1; 8; 2; 6; 5; 4] !!! b.
Proof. apply (window_sort_sorts [9; 3; 7; 1; 8; 2; 6; 5; 4]). reflexivity. Defined.

(** X17.  The value the median filter computes for a cell is one of the
    nine values of its 3x3 neighbourhood, at least five of which are not
    above it and at least five of which are not below it. *)
Theorem median_value_is_median (width : Z) (data : list Z) (y x c : Z) :
  let win := window width data y x c in
  let m : Z := median_value width data y x c in
  m ∈ win
  ∧ (5 <= length (filter (λ v : Z, (v <= m)%Z) win))%nat
  ∧ (5 <= length (filter (λ v : Z, (m <= v)%Z) win))%nat.
Proof. apply median_rank. reflexivity. Qed.

(** X18.  When at least five of the nine values of the neighbourhood are
    equal to [v], the median filter stores [v]: up to four outliers in a
    window are removed. *)
Theorem median_majority (width : Z) (data : list Z) (y x c v : Z) :
  (5 <= length (filter (λ u : Z, u = v) (window width data y x c)))%nat →
  median_value width data y x c = v.
Proof.
  intros Hv. unfold median_value.
  pose proof (median_rank (window width data y x c)
                (length_window width data y x c)) as Hrank.
  set (m := sort_loops 9 (window width data y x c) !!! 4%nat) in *.
  destruct Hrank as (_ & Hle & Hge).
  destruct (filter_overlap (λ u : Z, u = v) (λ u : Z, u <= m)
              (window width data y x c)) as (u & _ & -> & Hum);
    [rewrite length_window; lia|].
  destruct (filter_overlap (λ u : Z, u = v) (λ u : Z, m <= u)
              (window width data y x c)) as (u & _ & -> & Hmu);
    [rewrite length_window; lia|].
  lia.
Qed.

Lemma median_majority_witness :
  (5 <= length (filter (λ u : Z, (u = 40)%Z) (window 5 (data cross_image) 2 1 0)))%nat
  ∧ median_value 5 (data cross_image) 2 1 0 = 40.
Proof.
  assert (5 <= length (filter (λ u : Z, (u = 40)%Z)
                         (window 5 (data cross_image) 2 1 0)))%nat as H
    by (vm_compute; lia).
  split; [exact H|].
  exact (median_majority 5 (data cross_image) 2 1 0 40 H).
Defined.

Lemma median_cell_eq (width : Z) (data : list Z) (y x c : Z) :
  median_cell width data (y, x, c) = median_value width data y x c.
Proof. reflexivity. Qed.

(** X19.  [median_filter_rgb] stores the median of the neighbourhood in
    every interior cell of the output and writes nothing else: the bytes of
    the border rows and columns are those the output block held on entry
    (the block [main] passes comes fresh from [malloc]). *)
Theorem median_filter_rgb_cells (input : PPMImage) (heap : list Z) (y x c : Z) :
  buffer_ok (width input) (height input) heap →
  0 <= y < height input → 0 <= x < width input → 0 <= c < 3 →
  median_filter_rgb input heap !! Z.to_nat (idx (width input) y x c)
  = if bool_decide (1 <= y < height input - 1 ∧ 1 <= x < width input - 1)
    then Some (median_value (width input) (data input) y x c)
    else heap !! Z.to_nat (idx (width input) y x c).
Proof.
  intros Hbuf Hy Hx Hc. unfold median_filter_rgb.
  pose proof (idx_bounds (width input) (height input) y x c Hy Hx Hc) as Hidx.
  unfold buffer_ok in Hbuf.
  change (idx (width input) y x c) with (cell_idx (width input) (y, x, c)) in *.
  case_bool_decide as Hin.
  - rewrite <- median_cell_eq.
    apply (write_cells_hit (width input) (median_cell (width input) (data input))).
    + apply region_cells_in.
    + apply elem_of_region_cells. lia.
    + lia.
  - apply (write_cells_miss (width input) (median_cell (width input) (data input)));
      [lia|].
    intros [[y' x'] c'] Hcl E. apply elem_of_region_cells in Hcl.
    unfold cell_idx in E. apply idx_inj in E; lia.
Qed.

Lemma median_filter_rgb_cells_witness :
  buffer_ok 3 3 (replicate 27 0)
  ∧ median_filter_rgb dot_image (replicate 27 0) !! Z.to_nat (idx 3 1 1 0) = Some 11
  ∧ median_filter_rgb dot_image (replicate 27 0) !! Z.to_nat (idx 3 0 2 1) = Some 0.
Proof.
  split; [reflexivity|]. split.
  - exact (median_filter_rgb_cells dot_image (replicate 27 0) 1 1 0 eq_refl
             ltac:(simpl; lia) ltac:(simpl; lia) ltac:(lia)).
  - exact (median_filter_rgb_cells dot_image (replicate 27 0) 0 2 1 eq_refl
             ltac:(simpl; lia) ltac:(simpl; lia) ltac:(lia)).
Defined.

(** ** The MPI median filter *)

Section MedianPartitionFacts.

Variables height size : Z.
Hypothesis Hheight : 0 <= height.
Hypothesis Hsize : 1 <= size.

Local Abbreviation q := (rows_per_process height size).

Lemma rows_per_process_facts :
  0 <= q ∧ size * q <= height < size * q + size.
Proof.
  unfold rows_per_process. rewrite Z.quot_div_nonneg by lia.
  pose proof (Z.div_mod height size ltac:(lia)).
  pose proof (Z.mod_pos_bound height size ltac:(lia)).
  pose proof (Z.div_pos height size ltac:(lia) ltac:(lia)). lia.
Qed.

Lemma median_rows_covered y :
  0 <= y < height →
  ∃ rank, 0 <= rank < size
          ∧ start_row height size rank <= y < end_row height size rank.
Proof.
  intros Hy. destruct rows_per_process_facts as (Hq & Hlo & Hhi).
  destruct (Z.lt_ge_cases y ((size - 1) * q)) as [Hlt|Hge].
  - assert (0 < q) by nia.
    exists (y / q).
    pose proof (Z.div_mod y q ltac:(lia)).
    pose proof (Z.mod_pos_bound y q ltac:(lia)).
    assert (0 <= y / q) by (apply Z.div_pos; lia).
    assert (y / q < size - 1) by (apply Z.div_lt_upper_bound; lia).
    unfold end_row, start_row.
    destruct (Z.eqb_spec (y / q) (size - 1)); [lia|].
    split; [lia|]. nia.
  - exists (size - 1). unfold end_row, start_row.
    rewrite Z.eqb_refl. split; lia.
Qed.

Lemma median_rows_disjoint r1 r2 y :
  0 <= r1 < size → 0 <= r2 < size →
  start_row height size r1 <= y < end_row height size r1 →
  start_row height size r2 <= y < end_row height size r2 →
  r1 = r2.
Proof.
  destruct rows_per_process_facts as (Hq & Hlo & Hhi).
  unfold end_row, start_row. intros H1 H2.
  destruct (Z.eqb_spec r1 (size - 1)), (Z.eqb_spec r2 (size - 1));
    intros Hy1 Hy2; try lia; nia.
Qed.

End MedianPartitionFacts.

(** X20.  The row ranges [[start_row, end_row)] of the MPI median filter
    tile the rows of the image for every number of ranks: each row belongs
    to exactly one rank, the last rank taking what the division leaves. *)
Theorem median_rows_tile (height size : Z) :
  0 <= height → 1 <= size →
  (∀ y, 0 <= y < height →
     ∃ rank, 0 <= rank < size
             ∧ start_row height size rank <= y < end_row height size rank)
  ∧ (∀ r1 r2 y, 0 <= r1 < size → 0 <= r2 < size →
       start_row height size r1 <= y < end_row height size r1 →
       start_row height size r2 <= y < end_row height size r2 →
       r1 = r2).
Proof.
  intros Hh Hs. split.
  - intros y Hy. now apply median_rows_covered.
  - intros r1 r2 y. now apply median_rows_disjoint.
Qed.

Lemma median_rows_tile_witness :
  (∀ y, 0 <= y < 7 →
     ∃ rank, 0 <= rank < 3 ∧ start_row 7 3 rank <= y < end_row 7 3 rank)
  ∧ (∀ r1 r2 y, 0 <= r1 < 3 → 0 <= r2 < 3 →
       start_row 7 3 r1 <= y < end_row 7 3 r1 →
       start_row 7 3 r2 <= y < end_row 7 3 r2 →
       r1 = r2).
Proof. apply (median_rows_tile 7 3); lia. Defined.

(** X21.  In the MPI median filter the count every rank sends to
    [MPI_Gather] equals the count rank 0 receives per rank exactly when the
    number of ranks divides the height; otherwise the last rank sends more
    than is received. *)
Theorem median_gather_counts (width height size : Z) :
  0 < width → 0 <= height → 1 <= size →
  ((∀ rank, 0 <= rank < size →
      gather_sendcount width height size rank = gather_recvcount width height size)
   ↔ Z.rem height size = 0)
  ∧ (Z.rem height size ≠ 0 →
       gather_recvcount width height size
       < gather_sendcount width height size (size - 1)).
Proof.
  intros Hw Hh Hs.
  destruct (rows_per_process_facts height size Hh Hs) as (Hq & Hlo & Hhi).
  assert (Z.rem height size = height - size * rows_per_process height size) as Hrem.
  { unfold rows_per_process.
    pose proof (Z.quot_rem' height size). lia. }
  assert (gather_sendcount width height size (size - 1)
          = width * (height - (size - 1) * rows_per_process height size) * 3) as Hlast.
  { unfold gather_sendcount, end_row, start_row. now rewrite Z.eqb_refl. }
  split; [split|].
  - intros Hall. specialize (Hall (size - 1) ltac:(lia)).
    rewrite Hlast in Hall. unfold gather_recvcount in Hall. nia.
  - intros Hdiv rank Hr. unfold gather_sendcount, gather_recvcount, end_row, start_row.
    destruct (Z.eqb_spec rank (size - 1)) as [->|Hne]; [nia|].
    f_equal. f_equal. lia.
  - intros Hnz. rewrite Hlast. unfold gather_recvcount. nia.
Qed.

Lemma median_gather_counts_witness :
  ((∀ rank, 0 <= rank < 3 → gather_sendcount 4 7 3 rank = gather_recvcount 4 7 3)
   ↔ Z.rem 7 3 = 0)
  ∧ (Z.rem 7 3 ≠ 0 → gather_recvcount 4 7 3 < gather_sendcount 4 7 3 (3 - 1)).
Proof. apply (median_gather_counts 4 7 3); lia. Defined.

(** X22.  The MPI median filter runs its window over every row of a rank,
    the first and the last row of the image included: row 0 is in the range
    of rank 0 and row [height - 1] in that of the last rank, and there the
    window indices of the row above lie before the start of [input->data],
    those of the row below past its end. *)
Theorem median_mpi_window_outside (width height size : Z) (x dx c : Z) :
  1 <= size <= height →
  1 <= x < width - 1 → -1 <= dx <= 1 → 0 <= c < 3 →
  (start_row height size 0 <= 0 < end_row height size 0
   ∧ idx width (0 + -1) (x + dx) c < 0)
  ∧ (start_row height size (size - 1) <= height - 1 < end_row height size (size - 1)
     ∧ width * height * 3 <= idx width (height - 1 + 1) (x + dx) c).
Proof.
  intros Hs Hx Hdx Hc.
  destruct (rows_per_process_facts height size ltac:(lia) ltac:(lia)) as (Hq & Hlo & Hhi).
  assert (1 <= rows_per_process height size) by nia.
  assert ((size - 1) * rows_per_process height size <= height - 1) by nia.
  assert ((height - 1 + 1) * width = width * height) as Hrow by ring.
  unfold end_row, start_row, idx. rewrite Z.eqb_refl, Hrow.
  destruct (Z.eqb_spec 0 (size - 1)); repeat split; lia.
Qed.

Lemma median_mpi_window_outside_witness :
  (start_row 4 2 0 <= 0 < end_row 4 2 0
   ∧ idx 4 (0 + -1) (1 + -1) 0 < 0)
  ∧ (start_row 4 2 (2 - 1) <= 4 - 1 < end_row 4 2 (2 - 1)
     ∧ 4 * 4 * 3 <= idx 4 (4 - 1 + 1) (1 + -1) 0).
Proof. apply (median_mpi_window_outside 4 4 2 1 (-1) 0); lia. Defined.
